(** * serialize.js: a shallow embedding of [serialize] and its properties

    The JavaScript function [serialize (color, options)] of [src/serialize.js]
    is embedded as a computation over an explicit object store.  The modules it
    imports ([getColor], [to], [inGamut], [toGamut], [clone], [util],
    [ColorSpace], [defaults]) are not part of the embedded file: they are the
    fields of an environment record [Env], and every theorem is stated for an
    arbitrary environment.  Calls to them are logged in a trace, so that
    "is called with" and "runs exactly when" are statements about the run.
    A property read that JavaScript cannot carry out (the reference holds no
    color object, or no array) throws a [TypeError].

    JavaScript numbers are IEEE 754 binary64 values: Rocq's primitive floats. *)

From Stdlib Require Import ZArith String Ascii List Bool Floats Lia DecimalString.
From stdpp Require Import base option list.

Local Open Scope list_scope.
Local Open Scope string_scope.

Set Warnings "-register-all".

(** ** JavaScript values *)

Definition number := float.

(** The dynamically typed slots of [options] and of a format descriptor.
    [VObj] is an object literal such as [{type: "<percentage>", include: true}]. *)
Inductive JsVal :=
| VUndefined
| VNull
| VBool (b : bool)
| VNum (n : number)
| VStr (s : string)
| VObj (props : list (string * JsVal)).

(** ToBoolean: [undefined], [null], [false], [0], [-0], [NaN] and [""] are falsy. *)
Definition truthy (v : JsVal) : bool :=
  match v with
  | VUndefined | VNull => false
  | VBool b => b
  | VNum n => negb (PrimFloat.eqb n 0%float || PrimFloat.is_nan n)
  | VStr s => negb (s =? "")
  | VObj _ => true
  end.

(** [a || b] *)
Definition js_or (a b : JsVal) : JsVal := if truthy a then a else b.

(** [a ?? b] *)
Definition js_nullish (a b : JsVal) : JsVal :=
  match a with
  | VUndefined | VNull => b
  | _ => a
  end.

(** [v === true] and [v === false] *)
Definition is_true (v : JsVal) : bool :=
  match v with VBool true => true | _ => false end.

Definition is_false (v : JsVal) : bool :=
  match v with VBool false => true | _ => false end.

(** [v === s] for a string literal [s] *)
Definition is_string_lit (v : JsVal) (s : string) : bool :=
  match v with VStr s' => s' =? s | _ => false end.

(** [typeof v === "object"] (true of [null]) and [typeof v === "string"] *)
Definition typeof_object (v : JsVal) : bool :=
  match v with VNull | VObj _ => true | _ => false end.

Definition typeof_string (v : JsVal) : bool :=
  match v with VStr _ => true | _ => false end.

Fixpoint lookup_prop (k : string) (props : list (string * JsVal)) : JsVal :=
  match props with
  | [] => VUndefined
  | (k', v) :: rest => if k' =? k then v else lookup_prop k rest
  end.

(** [v?.k]: [undefined] on [undefined] and [null], a property read otherwise
    (the primitives reaching it here have no property of the names used). *)
Definition opt_chain (v : JsVal) (k : string) : JsVal :=
  match v with
  | VObj props => lookup_prop k props
  | _ => VUndefined
  end.

(** [a || b] on optional strings: [undefined] and [""] are falsy. *)
Definition str_or (a b : option string) : option string :=
  match a with
  | Some s => if s =? "" then b else a
  | None => b
  end.

(** The value of an optional string when [||] keeps it. *)
Definition truthy_str (o : option string) : option string :=
  match o with
  | Some s => if s =? "" then None else Some s
  | None => None
  end.

(** ** Objects and the store *)

Abbreviation loc := nat.

(** A color space object; [space_ref] is its identity, compared by [!==]. *)
Record ColorSpace := {
  space_ref : nat;
  id : string;
  cssId : option string;
}.

Definition space_same (a b : ColorSpace) : bool := Nat.eqb (space_ref a) (space_ref b).

(** [PlainColorObject] of [color.d.ts]; [coords] refers to an array in the store. *)
Record PlainColorObject := {
  space : ColorSpace;
  coords : loc;
  alpha : number;
}.

(** A color space as an input may give it: by its id or as the object. *)
Inductive SpaceRef :=
| SpaceId (i : string)
| SpaceObj (s : ColorSpace).

(** [ColorObject] and [ColorConstructor] of [color.d.ts]: an input that is
    not yet a [PlainColorObject].  Its space is under [space] or [spaceId],
    by id or as the object, and its alpha may be missing. *)
Record ColorObject := {
  in_spaceId : option SpaceRef;
  in_space : option SpaceRef;
  in_coords : loc;
  in_alpha : option number;
}.

Inductive cell :=
| HColor (c : PlainColorObject)
| HArray (xs : list JsVal)
| HInput (o : ColorObject).

Abbreviation heap := (list cell).

(** ** Outcomes *)

Record JsError := {
  err_name : string;
  err_message : string;
}.

Definition TypeError (msg : string) : JsError :=
  {| err_name := "TypeError"; err_message := msg |}.

Inductive outcome (A : Type) :=
| Ret (a : A)
| Throw (e : JsError).
Arguments Ret {A} a.
Arguments Throw {A} e.

(** An imported function or a hook: it may read and write the whole store. *)
Definition ext (A : Type) := heap -> outcome A * heap.

(** ** Options, formats and the environment *)

(** [ColorTypes] of [color.d.ts]: a string to parse or a reference to an
    object of the store, a [PlainColorObject] ([HColor]) or a [ColorObject]
    or [ColorConstructor] ([HInput]). *)
Inductive ColorTypes :=
| CString (s : string)
| CObject (l : loc).

Record Options := {
  o_precision : JsVal;
  o_format : option string;
  o_inGamut : JsVal;
  o_coords : JsVal;
  o_alpha : JsVal;
}.

(** [options = {}] *)
Definition no_options : Options :=
  {| o_precision := VUndefined; o_format := None; o_inGamut := VUndefined;
     o_coords := VUndefined; o_alpha := VUndefined |}.

Record Format := {
  f_type : string;
  f_name : option string;
  f_id : option string;
  f_ids : option (list string);
  f_space : option ColorSpace;
  f_toGamut : JsVal;
  f_alpha : JsVal;
  f_commas : bool;
  f_serializeCoords : loc -> JsVal -> JsVal -> ext loc;
  f_serialize : option (loc -> number -> Options -> ext string);
}.

(** What [serialize.js] imports. *)
Record Env := {
  defaults_precision : JsVal;
  getColor : ColorTypes -> ext loc;
  getFormat : ColorSpace -> string -> option Format;
  findFormat : string -> option Format;
  DEFAULT_FORMAT : Format;
  to : loc -> ColorSpace -> ext loc;
  checkInGamut : loc -> ext bool;
  toGamut : loc -> JsVal -> ext loc;
  clone : loc -> ext loc;
  serializeNumber : number -> JsVal -> option string -> string;
  number_toString : number -> string;
}.

(** ** The trace of calls *)

Inductive Event :=
| EGetColor (c : ColorTypes) (r : outcome loc)
| ETo (c : loc) (s : ColorSpace) (r : outcome loc)
| ECheckInGamut (c : loc) (r : outcome bool)
| EClone (c : loc) (r : outcome loc)
| EToGamut (c : loc) (sel : JsVal) (r : outcome loc)
| ESerializeCoords (coords : loc) (precision coordFormat : JsVal) (r : outcome loc)
| ESerializeHook (coords : loc) (alpha : number) (options : Options) (r : outcome string).

(** ** The monad of [serialize]: store and trace, with exceptions *)

Definition state : Type := heap * list Event.

Definition M (A : Type) : Type := state -> outcome A * state.

Definition ret {A} (a : A) : M A := fun st => (Ret a, st).

Definition throw {A} (e : JsError) : M A := fun st => (Throw e, st).

Definition bind {A B} (m : M A) (k : A -> M B) : M B :=
  fun st =>
    match m st with
    | (Ret a, st') => k a st'
    | (Throw e, st') => (Throw e, st')
    end.

Notation "x <- m ;; k" := (bind m (fun x => k))
  (at level 100, m at next level, right associativity).
Notation "m ;;; k" := (bind m (fun _ => k))
  (at level 100, right associativity).

(** A call of an imported function or hook, logged with its outcome. *)
Definition call {A} (ev : outcome A -> Event) (f : ext A) : M A :=
  fun st =>
    let '(r, h') := f (fst st) in
    (r, (h', (snd st ++ [ev r])%list)).

(** Property reads and array operations of [serialize] itself. *)
Definition readColor (l : loc) : M PlainColorObject :=
  fun st =>
    match fst st !! l with
    | Some (HColor c) => (Ret c, st)
    | _ => (Throw (TypeError "not a color object"), st)
    end.

Definition readArray (l : loc) : M (list JsVal) :=
  fun st =>
    match fst st !! l with
    | Some (HArray xs) => (Ret xs, st)
    | _ => (Throw (TypeError "not an array"), st)
    end.

Definition allocArray (xs : list JsVal) : M loc :=
  fun st => (Ret (length (fst st)), ((fst st ++ [HArray xs])%list, snd st)).

Definition writeArray (l : loc) (xs : list JsVal) : M unit :=
  fun st => (Ret tt, (<[l := HArray xs]> (fst st), snd st)).

(** ** [serialize] *)

Section Serialize.

Variable E : Env.

(** ToString, for the elements of an array and for template literals. *)
Definition js_toString (v : JsVal) : string :=
  match v with
  | VUndefined => "undefined"
  | VNull => "null"
  | VBool b => if b then "true" else "false"
  | VNum n => number_toString E n
  | VStr s => s
  | VObj _ => "[object Object]"
  end.

(** [Array.prototype.join]: [undefined] and [null] elements print as nothing. *)
Definition join_elem (v : JsVal) : string :=
  match v with
  | VUndefined | VNull => ""
  | _ => js_toString v
  end.

Fixpoint join (sep : string) (xs : list JsVal) : string :=
  match xs with
  | [] => ""
  | [x] => join_elem x
  | x :: rest => join_elem x ++ sep ++ join sep rest
  end.

(** Lines 31-35: the format descriptor that [options.format] resolves to. *)
Definition resolveFormat (sp : ColorSpace) (format : string) : Format :=
  match getFormat E sp format with
  | Some f => f
  | None =>
    match findFormat E format with
    | Some f => f
    | None =>
      match getFormat E sp "default" with
      | Some f => f
      | None => DEFAULT_FORMAT E
      end
    end
  end.

(** Lines 29-41: normalize the color, resolve the format, and convert the
    color when the format belongs to another space. *)
Definition convertStage (color : ColorTypes) (format : string) : M (Format * loc) :=
  color <- call (EGetColor color) (getColor E color) ;;
  c <- readColor color ;;
  let fmt := resolveFormat (space c) format in
  match f_space fmt with
  | Some s =>
    if negb (space_same s (space c))
    then color' <- call (ETo color s) (to E color s) ;; ret (fmt, color')
    else ret (fmt, color)
  | None => ret (fmt, color)
  end.

(** Line 23 with line 49: [inGamut = true] by default, then
    [inGamut ||= format.toGamut]. *)
Definition inGamut_option (options : Options) : JsVal :=
  match o_inGamut options with
  | VUndefined => VBool true
  | v => v
  end.

Definition effective_inGamut (options : Options) (fmt : Format) : JsVal :=
  js_or (inGamut_option options) (f_toGamut fmt).

(** Line 53: the second argument of [toGamut]. *)
Definition toGamut_arg (inGamut : JsVal) : JsVal :=
  if is_true inGamut then VUndefined else inGamut.

(** Lines 47-54: copy the coordinates, then map them into gamut when asked to
    and needed.  The result is the array that [coords] refers to afterwards. *)
Definition gamutStage (options : Options) (fmt : Format) (color : loc) : M loc :=
  c <- readColor color ;;
  xs <- readArray (coords c) ;;
  coords0 <- allocArray xs ;;
  let inGamut := effective_inGamut options fmt in
  if truthy inGamut then
    ok <- call (ECheckInGamut color) (checkInGamut E color) ;;
    if negb ok then
      cl <- call (EClone color) (clone E color) ;;
      g <- call (EToGamut cl (toGamut_arg inGamut)) (toGamut E cl (toGamut_arg inGamut)) ;;
      gc <- readColor g ;;
      ret (coords gc)
    else ret coords0
  else ret coords0.

(** Line 21: [precision = defaults.precision]. *)
Definition precision_option (options : Options) : JsVal :=
  match o_precision options with
  | VUndefined => defaults_precision E
  | v => v
  end.

(** Line 66: [format.name || "color"]. *)
Definition functional_name (fmt : Format) : string :=
  match str_or (f_name fmt) (Some "color") with
  | Some n => n
  | None => "color"
  end.

(** Line 72: [format.id || format.ids?.[0] || color.space.cssId || color.space.id]. *)
Definition first_id (fmt : Format) : option string :=
  match f_ids fmt with
  | Some (i :: _) => Some i
  | _ => None
  end.

Definition css_id (fmt : Format) (sp : ColorSpace) : string :=
  match str_or (f_id fmt) (str_or (first_id fmt) (str_or (cssId sp) (Some (id sp)))) with
  | Some s => s
  | None => id sp
  end.

(** The same at run time: [color.space] is read only when the format has
    neither an id nor a first id to write. *)
Definition read_cssId (fmt : Format) (color : loc) : M string :=
  match truthy_str (str_or (f_id fmt) (first_id fmt)) with
  | Some i => ret i
  | None => c <- readColor color ;; ret (css_id fmt (space c))
  end.

(** Lines 79-81: a string or a boolean given as [options.alpha] becomes an object. *)
Definition normalize_alphaFormat (alphaFormat : JsVal) : JsVal :=
  match alphaFormat with
  | VUndefined => VUndefined
  | _ =>
    if negb (typeof_object alphaFormat) then
      if typeof_string alphaFormat
      then VObj [("type", alphaFormat)]
      else VObj [("include", alphaFormat)]
    else alphaFormat
  end.

(** Line 83 *)
Definition alphaType (alphaFormat : JsVal) : JsVal :=
  js_nullish (opt_chain alphaFormat "type") (VStr "<number>").

(** Line 84 *)
Definition serializeAlpha (alphaFormat : JsVal) (fmt : Format) (a : number) : bool :=
  is_true (opt_chain alphaFormat "include")
  || is_true (f_alpha fmt)
  || (negb (is_false (opt_chain alphaFormat "include"))
      && negb (is_false (f_alpha fmt))
      && PrimFloat.ltb a 1%float).

(** Lines 88-97: the text of alpha inside the suffix. *)
Definition alpha_text (precision : JsVal) (alphaFormat : JsVal) (a : number) : string :=
  match precision with
  | VNull => number_toString E a
  | _ =>
    if is_string_lit (alphaType alphaFormat) "<percentage>"
    then serializeNumber E (PrimFloat.mul a 100%float) precision (Some "%")
    else serializeNumber E a precision None
  end.

(** Lines 85-100 *)
Definition strAlpha (options : Options) (fmt : Format) (a : number) : string :=
  let alphaFormat := normalize_alphaFormat (o_alpha options) in
  if serializeAlpha alphaFormat fmt a
  then (if f_commas fmt then "," else " /") ++ " "
       ++ alpha_text (precision_option options) alphaFormat a
  else "".

(** Lines 64-103: functional syntax. *)
Definition functionalStage (options : Options) (fmt : Format) (color coords : loc) : M string :=
  let name := functional_name fmt in
  args <- call (ESerializeCoords coords (precision_option options) (o_coords options))
               (f_serializeCoords fmt coords (precision_option options) (o_coords options)) ;;
  (if name =? "color" then
     cssId <- read_cssId fmt color ;;
     xs <- readArray args ;;
     writeArray args (VStr cssId :: xs)
   else ret tt) ;;;
  c <- readColor color ;;
  xs <- readArray args ;;
  ret (name ++ "(" ++ join (if f_commas fmt then ", " else " ") xs
            ++ strAlpha options fmt (alpha c) ++ ")").

(** Lines 56-63: custom formats. *)
Definition customStage (options : Options) (formatId : string) (fmt : Format)
    (color coords : loc) : M string :=
  match f_serialize fmt with
  | Some hook =>
    c <- readColor color ;;
    call (ESerializeHook coords (alpha c) options) (hook coords (alpha c) options)
  | None =>
    throw (TypeError ("format " ++ formatId
                      ++ " can only be used to parse colors, not for serialization"))
  end.

Definition renderStage (options : Options) (formatId : string) (fmt : Format)
    (color coords : loc) : M string :=
  if f_type fmt =? "custom"
  then customStage options formatId fmt color coords
  else functionalStage options fmt color coords.

(** Line 22: [format = "default"]. *)
Definition format_option (options : Options) : string :=
  match o_format options with
  | Some f => f
  | None => "default"
  end.

Definition serialize (color : ColorTypes) (options : Options) : M string :=
  let formatId := format_option options in
  fc <- convertStage color formatId ;;
  coords <- gamutStage options (fst fc) (snd fc) ;;
  renderStage options formatId (fst fc) (snd fc) coords.

End Serialize.

(** ** The vocabulary of the statements *)

(** An optional string that [||] skips: [undefined] or [""]. *)
Definition falsy (o : option string) : Prop := o = None \/ o = Some "".

(** Line 102: the text of a functional format of arguments [xs], for a color
    of space [sp], with the alpha suffix [suffix]. *)
Definition functional_text (E : Env) (fmt : Format) (sp : ColorSpace)
    (xs : list JsVal) (suffix : string) : string :=
  functional_name fmt ++ "("
  ++ join E (if f_commas fmt then ", " else " ")
          (if functional_name fmt =? "color" then VStr (css_id fmt sp) :: xs else xs)
  ++ suffix ++ ")".

(** One run of lines 47-54 from the store [h], case by case: its outcome, the
    store it leaves and the calls it makes.  [flag] is [inGamut] after line 49. *)
Inductive GamutRun (E : Env) (flag : JsVal) (color : loc) (h : heap)
  : outcome loc -> heap -> list Event -> Prop :=
| GR_no_color e :
    (forall c, h !! color <> Some (HColor c)) ->
    GamutRun E flag color h (Throw e) h []
| GR_no_coords c e :
    h !! color = Some (HColor c) ->
    (forall xs, h !! coords c <> Some (HArray xs)) ->
    GamutRun E flag color h (Throw e) h []
| GR_off c xs :
    h !! color = Some (HColor c) ->
    h !! coords c = Some (HArray xs) ->
    truthy flag = false ->
    GamutRun E flag color h (Ret (length h)) (h ++ [HArray xs])%list []
| GR_check_throws c xs e h2 :
    h !! color = Some (HColor c) ->
    h !! coords c = Some (HArray xs) ->
    truthy flag = true ->
    checkInGamut E color (h ++ [HArray xs])%list = (Throw e, h2) ->
    GamutRun E flag color h (Throw e) h2 [ECheckInGamut color (Throw e)]
| GR_in_gamut c xs h2 :
    h !! color = Some (HColor c) ->
    h !! coords c = Some (HArray xs) ->
    truthy flag = true ->
    checkInGamut E color (h ++ [HArray xs])%list = (Ret true, h2) ->
    GamutRun E flag color h (Ret (length h)) h2 [ECheckInGamut color (Ret true)]
| GR_clone_throws c xs h2 e h3 :
    h !! color = Some (HColor c) ->
    h !! coords c = Some (HArray xs) ->
    truthy flag = true ->
    checkInGamut E color (h ++ [HArray xs])%list = (Ret false, h2) ->
    clone E color h2 = (Throw e, h3) ->
    GamutRun E flag color h (Throw e) h3
             [ECheckInGamut color (Ret false); EClone color (Throw e)]
| GR_toGamut_throws c xs h2 cl h3 e h4 :
    h !! color = Some (HColor c) ->
    h !! coords c = Some (HArray xs) ->
    truthy flag = true ->
    checkInGamut E color (h ++ [HArray xs])%list = (Ret false, h2) ->
    clone E color h2 = (Ret cl, h3) ->
    toGamut E cl (toGamut_arg flag) h3 = (Throw e, h4) ->
    GamutRun E flag color h (Throw e) h4
             [ECheckInGamut color (Ret false); EClone color (Ret cl);
              EToGamut cl (toGamut_arg flag) (Throw e)]
| GR_mapped c xs h2 cl h3 g h4 gc :
    h !! color = Some (HColor c) ->
    h !! coords c = Some (HArray xs) ->
    truthy flag = true ->
    checkInGamut E color (h ++ [HArray xs])%list = (Ret false, h2) ->
    clone E color h2 = (Ret cl, h3) ->
    toGamut E cl (toGamut_arg flag) h3 = (Ret g, h4) ->
    h4 !! g = Some (HColor gc) ->
    GamutRun E flag color h (Ret (coords gc)) h4
             [ECheckInGamut color (Ret false); EClone color (Ret cl);
              EToGamut cl (toGamut_arg flag) (Ret g)]
| GR_mapped_no_color c xs h2 cl h3 g h4 e :
    h !! color = Some (HColor c) ->
    h !! coords c = Some (HArray xs) ->
    truthy flag = true ->
    checkInGamut E color (h ++ [HArray xs])%list = (Ret false, h2) ->
    clone E color h2 = (Ret cl, h3) ->
    toGamut E cl (toGamut_arg flag) h3 = (Ret g, h4) ->
    (forall gc, h4 !! g <> Some (HColor gc)) ->
    GamutRun E flag color h (Throw e) h4
             [ECheckInGamut color (Ret false); EClone color (Ret cl);
              EToGamut cl (toGamut_arg flag) (Ret g)].

(** [h'] has every object of [h] below [n] as it is in [h]. *)
Definition frame (n : nat) (h h' : heap) : Prop :=
  forall l, l < n -> h' !! l = h !! l.

(** What [getColor] may make, in place, of an input object that is not yet
    a plain color object: the same coordinate array, and the alpha it had if
    it had one. *)
Definition completes (o : ColorObject) (c : PlainColorObject) : Prop :=
  coords c = in_coords o /\ forall a, in_alpha o = Some a -> alpha c = a.

(** The imported functions keep to their contracts: [getColor] removes no
    object and writes to none that exists, except that it may complete, in
    place, an input object that is not yet a plain color object; [to],
    [checkInGamut] and [clone] write to no object that exists when they are
    called; the object [clone] returns is new, and so is its coordinate array;
    [toGamut] writes at most to the object it is given and to the coordinate
    array of that object, and the coordinate array of its result is that
    array or a new one. *)
Record Contracts (E : Env) : Prop := {
  getColor_writes : forall input h r h',
    getColor E input h = (r, h') ->
    length h <= length h'
    /\ forall l, l < length h ->
         h' !! l = h !! l
         \/ (input = CObject l
             /\ exists o c, h !! l = Some (HInput o)
                            /\ h' !! l = Some (HColor c) /\ completes o c);
  to_no_write : forall c s h r h',
    to E c s h = (r, h') -> frame (length h) h h';
  checkInGamut_no_write : forall c h r h',
    checkInGamut E c h = (r, h') -> frame (length h) h h';
  clone_no_write : forall c h r h',
    clone E c h = (r, h') -> frame (length h) h h';
  clone_fresh : forall c h cl h',
    clone E c h = (Ret cl, h') ->
    length h <= cl
    /\ forall ccl, h' !! cl = Some (HColor ccl) -> length h <= coords ccl;
  toGamut_writes : forall cl sel h r h',
    toGamut E cl sel h = (r, h') ->
    forall l, l < length h -> l <> cl ->
              (forall ccl, h !! cl = Some (HColor ccl) -> l <> coords ccl) ->
              h' !! l = h !! l;
  toGamut_result : forall cl sel h g h' gc,
    toGamut E cl sel h = (Ret g, h') ->
    h' !! g = Some (HColor gc) ->
    (exists ccl, h !! cl = Some (HColor ccl) /\ coords gc = coords ccl)
    \/ length h <= coords gc;
}.

(** A format keeps to its contract: [serializeCoords] and the [serialize] hook
    write at most to the array they are given, and the array that
    [serializeCoords] returns is that array or a new one. *)
Definition format_contract (fmt : Format) : Prop :=
  (forall w p cf h r h',
     f_serializeCoords fmt w p cf h = (r, h') ->
     (forall l, l < length h -> l <> w -> h' !! l = h !! l)
     /\ (forall args, r = Ret args -> args = w \/ length h <= args))
  /\ (forall hook w a o h r h',
        f_serialize fmt = Some hook ->
        hook w a o h = (r, h') ->
        forall l, l < length h -> l <> w -> h' !! l = h !! l).

(** [hoare n P m Q]: started in a store that satisfies [P] and has at least [n]
    objects, [m] leaves the objects below [n] as they are, whatever its
    outcome, and when it returns [a] the store satisfies [Q a]. *)
Definition hoare {A} (n : nat) (P : heap -> Prop) (m : M A) (Q : A -> heap -> Prop) : Prop :=
  forall h tr r h' tr',
    n <= length h -> P h -> m (h, tr) = (r, (h', tr')) ->
    frame n h h' /\ forall a, r = Ret a -> Q a h'.

(** The gamut functions do what they are for: [checkInGamut] decides a
    predicate [in_gamut] of the space and the coordinates and changes nothing;
    [clone] returns a copy; [toGamut] returns, without fail, a color of the
    space of its argument whose coordinates are in gamut. *)
Record GamutContracts (E : Env) (in_gamut : ColorSpace -> list JsVal -> bool) : Prop := {
  checkInGamut_decides : forall c (h : heap) col xs,
    h !! c = Some (HColor col) ->
    h !! coords col = Some (HArray xs) ->
    checkInGamut E c h = (Ret (in_gamut (space col) xs), h);
  clone_copies : forall c (h : heap) col xs,
    h !! c = Some (HColor col) ->
    h !! coords col = Some (HArray xs) ->
    exists cl h' ccl,
      clone E c h = (Ret cl, h')
      /\ h' !! cl = Some (HColor ccl)
      /\ space ccl = space col
      /\ h' !! coords ccl = Some (HArray xs);
  toGamut_maps : forall cl sel (h : heap) ccl xs,
    h !! cl = Some (HColor ccl) ->
    h !! coords ccl = Some (HArray xs) ->
    exists g h' gc ys,
      toGamut E cl sel h = (Ret g, h')
      /\ h' !! g = Some (HColor gc)
      /\ h' !! coords gc = Some (HArray ys)
      /\ space gc = space ccl
      /\ in_gamut (space gc) ys = true;
}.

(** The error with which a call ended, when it threw. *)
Definition outcome_error {A} (r : outcome A) : option JsError :=
  match r with
  | Throw e => Some e
  | Ret _ => None
  end.

Definition event_error (ev : Event) : option JsError :=
  match ev with
  | EGetColor _ r => outcome_error r
  | ETo _ _ r => outcome_error r
  | ECheckInGamut _ r => outcome_error r
  | EClone _ r => outcome_error r
  | EToGamut _ _ r => outcome_error r
  | ESerializeCoords _ _ _ r => outcome_error r
  | ESerializeHook _ _ _ r => outcome_error r
  end.

Definition returned (ev : Event) : Prop := event_error ev = None.

(** The place of a call in the source: [getColor] (line 29), [to] (40),
    [checkInGamut] (51), [clone] and [toGamut] (53), then the hook of a custom
    format (58) or [serializeCoords] (68). *)
Definition rank (ev : Event) : nat :=
  match ev with
  | EGetColor _ _ => 0
  | ETo _ _ _ => 1
  | ECheckInGamut _ _ => 2
  | EClone _ _ => 3
  | EToGamut _ _ _ => 4
  | ESerializeCoords _ _ _ _ => 5
  | ESerializeHook _ _ _ _ => 5
  end.

(** [emits T m]: a run of [m] only adds calls to the trace, and the calls
    [new] it adds, with the outcome [r] of the run, satisfy [T new r]. *)
Definition emits {A} (T : list Event -> outcome A -> Prop) (m : M A) : Prop :=
  forall h tr r h' tr',
    m (h, tr) = (r, (h', tr')) -> exists new, tr' = (tr ++ new)%list /\ T new r.

(** A run that calls nothing. *)
Definition silent {A} (new : list Event) (r : outcome A) : Prop := new = [].

(** No exception is caught: every call returned, or every call but the last
    returned and the run ends with the error of the last. *)
Definition propagates {A} (new : list Event) (r : outcome A) : Prop :=
  Forall returned new
  \/ exists pre ev e,
       new = (pre ++ [ev])%list /\ Forall returned pre
       /\ event_error ev = Some e /\ r = Throw e.

(** The calls are in the order of the source, each made at most once, and are
    all of places [lo] to [hi - 1]. *)
Definition in_order (lo hi : nat) (new : list Event) : Prop :=
  (forall ev, In ev new -> lo <= rank ev < hi)
  /\ forall i j a b, i < j -> new !! i = Some a -> new !! j = Some b -> rank a < rank b.

(** The objects that a call hands over to be written to: the clone for
    [toGamut], the working coordinates for [serializeCoords] and the hook. *)
Definition handed_over (ev : Event) : option loc :=
  match ev with
  | EToGamut cl _ _ => Some cl
  | ESerializeCoords w _ _ _ => Some w
  | ESerializeHook w _ _ _ => Some w
  | _ => None
  end.

(** ** Numbers as text *)

(** Modelled from the spec: the number formatting of [util.js], which is not
    part of [serialize.js]: a number written in decimal, as it is or "rounded
    to the requested significant-digit precision". *)
Module Util.

Definition show_Z (z : Z) : string :=
  NilEmpty.string_of_int (Z.to_int z).

(** A string without its trailing zeros; a string padded with zeros on the
    left up to a width. *)
Definition strip_zeros (s : string) : string :=
  let fix go (cs : list ascii) : list ascii :=
    match cs with
    | [] => []
    | c :: rest =>
      match go rest with
      | [] => if Ascii.eqb c "0" then [] else [c]
      | rest' => c :: rest'
      end
    end in
  string_of_list_ascii (go (list_ascii_of_string s)).

Definition pad_zeros (width : nat) (s : string) : string :=
  string_of_list_ascii (repeat "0"%char (width - String.length s)) ++ s.

(** Decimal text of [r * 10^d] for [0 <= r]. *)
Definition decimal (r d : Z) : string :=
  if (0 <=? d)%Z then show_Z (r * 10 ^ d)%Z
  else
    let k := (- d)%Z in
    let ip := (r / 10 ^ k)%Z in
    let fp := (r mod 10 ^ k)%Z in
    let frac := strip_zeros (pad_zeros (Z.to_nat k) (show_Z fp)) in
    if frac =? "" then show_Z ip else show_Z ip ++ "." ++ frac.

(** A finite binary64 value [m * 2^e] as an exact decimal [r * 10^d]. *)
Definition exact_decimal (m : positive) (e : Z) : Z * Z :=
  if (0 <=? e)%Z then (Z.pos m * 2 ^ e, 0)%Z
  else (Z.pos m * 5 ^ (- e), e)%Z.

Definition show_decimal (neg : bool) (rd : Z * Z) : string :=
  (if neg then "-" else "") ++ decimal (fst rd) (snd rd).

(** Number to string, exact on the dyadic values of the examples. *)
Definition number_toString (x : number) : string :=
  match Prim2SF x with
  | S754_zero _ => "0"
  | S754_infinity s => if s then "-Infinity" else "Infinity"
  | S754_nan => "NaN"
  | S754_finite s m e => show_decimal s (exact_decimal m e)
  end.

(** The number of decimal digits of [r], for [0 < r]. *)
Fixpoint digits_upto (fuel : nat) (r : Z) : Z :=
  match fuel with
  | O => 1
  | S fuel' => if (r <? 10)%Z then 1 else (1 + digits_upto fuel' (r / 10))%Z
  end.

Definition digits (r : Z) : Z := digits_upto (S (Z.to_nat (Z.log2 r))) r.

(** Round [r * 10^d] half up to [p] significant digits. *)
Definition round_significant (p : Z) (rd : Z * Z) : Z * Z :=
  let '(r, d) := rd in
  let len := digits r in
  if (0 <? p)%Z && (p <? len)%Z then
    let drop := (len - p)%Z in
    ((r + 10 ^ drop / 2) / 10 ^ drop, d + drop)%Z
  else rd.

Definition integer_of (x : number) : Z :=
  match Prim2SF x with
  | S754_finite s m e =>
    let v := if (0 <=? e)%Z then (Z.pos m * 2 ^ e)%Z else (Z.pos m / 2 ^ (- e))%Z in
    if s then (- v)%Z else v
  | _ => 0%Z
  end.

(** Modelled from the spec: [util.serializeNumber], which is not part of
    [serialize.js]: the number rounded to the requested number of significant
    digits, followed by the unit. *)
Definition serializeNumber (x : number) (precision : JsVal) (unit : option string) : string :=
  let p := match precision with VNum p => integer_of p | _ => 0%Z end in
  let text :=
    match Prim2SF x with
    | S754_finite s m e => show_decimal s (round_significant p (exact_decimal m e))
    | _ => number_toString x
    end in
  text ++ match unit with Some u => u | None => "" end.

End Util.

(** The decimal [m * 10^k] is [r * 10^d], for [0 < r], rounded to [p]
    significant digits: it is [r * 10^d] itself when [r] has no more than [p]
    digits; otherwise [m] has [p] digits, or is [10^p], and no decimal of [p]
    digits is nearer to [r * 10^d]. *)
Definition rounded (p : Z) (rd mk : Z * Z) : Prop :=
  (fst mk = fst rd /\ snd mk = snd rd /\ fst rd < 10 ^ p)%Z
  \/ (snd rd < snd mk
      /\ 10 ^ (p - 1) <= fst mk <= 10 ^ p
      /\ 2 * Z.abs (fst rd - fst mk * 10 ^ (snd mk - snd rd)) <= 10 ^ (snd mk - snd rd))%Z.

(** Modelled from the spec: what [util.serializeNumber] makes of a finite
    number other than zero and a precision of [p] digits, [0 < p]: the
    number "rounded to the requested significant-digit precision", in
    decimal, followed by the unit. *)
Definition rounds_significant (E : Env) : Prop :=
  forall x p unit neg mant e,
    Prim2SF x = S754_finite neg mant e ->
    (0 < Util.integer_of p)%Z ->
    exists mk,
      rounded (Util.integer_of p) (Util.exact_decimal mant e) mk
      /\ serializeNumber E x (VNum p) unit
         = Util.show_decimal neg mk ++ match unit with Some u => u | None => "" end.

(** ** A small concrete environment

    Used to run [serialize] on examples.  Two spaces, a handful of formats,
    clipping as the gamut mapper.  Nothing below is used by the general
    theorems other than as an instance. *)

Module Demo.

Definition srgb : ColorSpace := {| space_ref := 0; id := "srgb"; cssId := None |}.
Definition p3 : ColorSpace := {| space_ref := 1; id := "p3"; cssId := Some "display-p3" |}.

(** Range check and clipping on [0, 1]; [null] coordinates are in range. *)
Definition coord_ok (v : JsVal) : bool :=
  match v with
  | VNum x => negb (PrimFloat.ltb x 0%float) && negb (PrimFloat.ltb 1%float x)
  | _ => true
  end.

Definition clip (v : JsVal) : JsVal :=
  match v with
  | VNum x =>
    if PrimFloat.ltb x 0%float then VNum 0%float
    else if PrimFloat.ltb 1%float x then VNum 1%float else v
  | _ => v
  end.

Definition in_gamut (sp : ColorSpace) (xs : list JsVal) : bool := forallb coord_ok xs.

Definition bad_reference {A} : outcome A := Throw (TypeError "bad reference").

(** Modelled from the spec: the registry of color spaces, looked up by id. *)
Definition space_of_id (i : string) : option ColorSpace :=
  if i =? "srgb" then Some srgb
  else if i =? "p3" then Some p3
  else None.

(** The space that an input refers to, [color.space || color.spaceId], an
    id being looked up. *)
Definition given_space (o : ColorObject) : option ColorSpace :=
  match (match in_space o with Some s => Some s | None => in_spaceId o end) with
  | Some (SpaceObj s) => Some s
  | Some (SpaceId i) => space_of_id i
  | None => None
  end.

(** Modelled from the spec: the input normalization collaborator
    ([getColor.js], which is not part of [serialize.js]).  A string is for the
    parser, which this environment does not have; a plain color object is
    returned as it is; a [ColorObject] or [ColorConstructor] is completed in
    place, its space looked up and its alpha set to 1 when missing, and
    returned. *)
Definition getColor (c : ColorTypes) : ext loc :=
  fun h =>
    match c with
    | CObject l =>
      match h !! l with
      | Some (HInput o) =>
        match given_space o with
        | Some sp =>
          (Ret l, <[l := HColor {| space := sp; coords := in_coords o;
                                   alpha := default 1%float (in_alpha o) |}]> h)
        | None => (Throw (TypeError "No color space found"), h)
        end
      | _ => (Ret l, h)
      end
    | CString s => (Throw (TypeError ("Could not parse " ++ s)), h)
    end.

Definition with_color {A} (l : loc) (k : PlainColorObject -> list JsVal -> ext A) : ext A :=
  fun h =>
    match h !! l with
    | Some (HColor c) =>
      match h !! coords c with
      | Some (HArray xs) => k c xs h
      | _ => (bad_reference, h)
      end
    | _ => (bad_reference, h)
    end.

(** A new object with a new coordinate array. *)
Definition new_color (sp : ColorSpace) (xs : list JsVal) (a : number) : ext loc :=
  fun h =>
    let arr := length h in
    (Ret (S arr), (h ++ [HArray xs; HColor {| space := sp; coords := arr; alpha := a |}])%list).

Definition to (l : loc) (sp : ColorSpace) : ext loc :=
  with_color l (fun c xs => new_color sp xs (alpha c)).

Definition clone (l : loc) : ext loc :=
  with_color l (fun c xs => new_color (space c) xs (alpha c)).

Definition checkInGamut (l : loc) : ext bool :=
  with_color l (fun c xs h => (Ret (in_gamut (space c) xs), h)).

(** Clips the coordinates of the object it is given, in place. *)
Definition toGamut (l : loc) (sel : JsVal) : ext loc :=
  with_color l (fun c xs h => (Ret l, <[coords c := HArray (map clip xs)]> h)).

Definition serializeCoords (l : loc) (precision coordFormat : JsVal) : ext loc :=
  fun h =>
    match h !! l with
    | Some (HArray xs) =>
      let text v :=
        match v with
        | VNum x => VStr (match precision with
                          | VNull => Util.number_toString x
                          | _ => Util.serializeNumber x precision None
                          end)
        | _ => VStr "none"
        end in
      (Ret (length h), (h ++ [HArray (map text xs)])%list)
    | _ => (bad_reference, h)
    end.

Definition color_format : Format :=
  {| f_type := "function"; f_name := Some "color"; f_id := None; f_ids := None;
     f_space := None; f_toGamut := VUndefined; f_alpha := VUndefined; f_commas := false;
     f_serializeCoords := serializeCoords; f_serialize := None |}.

Definition rgba_format : Format :=
  {| f_type := "function"; f_name := Some "rgba"; f_id := None; f_ids := None;
     f_space := Some srgb; f_toGamut := VBool true; f_alpha := VBool true; f_commas := true;
     f_serializeCoords := serializeCoords; f_serialize := None |}.

(** A custom format that writes the number of coordinates. *)
Definition count_hook (l : loc) (a : number) (o : Options) : ext string :=
  fun h =>
    match h !! l with
    | Some (HArray xs) => (Ret ("#" ++ Util.show_Z (Z.of_nat (length xs))), h)
    | _ => (bad_reference, h)
    end.

Definition count_format : Format :=
  {| f_type := "custom"; f_name := None; f_id := None; f_ids := None;
     f_space := None; f_toGamut := VUndefined; f_alpha := VUndefined; f_commas := false;
     f_serializeCoords := serializeCoords; f_serialize := Some count_hook |}.

(** A custom format that can only be parsed. *)
Definition keyword_format : Format :=
  {| f_type := "custom"; f_name := None; f_id := None; f_ids := None;
     f_space := Some srgb; f_toGamut := VUndefined; f_alpha := VUndefined; f_commas := false;
     f_serializeCoords := serializeCoords; f_serialize := None |}.

(** A [color()] format with an id of its own. *)
Definition tagged_format : Format :=
  {| f_type := "function"; f_name := Some "color"; f_id := Some "tagged"; f_ids := None;
     f_space := None; f_toGamut := VUndefined; f_alpha := VUndefined; f_commas := false;
     f_serializeCoords := serializeCoords; f_serialize := None |}.

Definition fallback_format : Format :=
  {| f_type := "functions"; f_name := Some "color"; f_id := None; f_ids := None;
     f_space := None; f_toGamut := VUndefined; f_alpha := VUndefined; f_commas := false;
     f_serializeCoords := serializeCoords; f_serialize := None |}.

Definition all_formats : list Format :=
  [color_format; rgba_format; count_format; keyword_format; tagged_format;
   fallback_format].

Definition srgb_formats : list (string * Format) :=
  [("color", color_format); ("rgba", rgba_format); ("count", count_format);
   ("keyword", keyword_format); ("tagged", tagged_format)].

Fixpoint assoc (k : string) (l : list (string * Format)) : option Format :=
  match l with
  | [] => None
  | (k', f) :: rest => if k' =? k then Some f else assoc k rest
  end.

Definition formats_of (sp : ColorSpace) : list (string * Format) :=
  if space_same sp srgb then srgb_formats
  else if space_same sp p3 then [("color", color_format)]
  else [].

(** Modelled from the spec: the format catalog of a space, its first format
    being the default one, and the search over all registered spaces. *)
Definition getFormat (sp : ColorSpace) (name : string) : option Format :=
  if name =? "default" then snd <$> head (formats_of sp)
  else assoc name (formats_of sp).

Definition findFormat (name : string) : option Format :=
  assoc name (formats_of srgb ++ formats_of p3)%list.

Definition env : Env :=
  Build_Env (VNum 5%float) getColor getFormat findFormat fallback_format
            to checkInGamut toGamut clone Util.serializeNumber Util.number_toString.

(** A store with one sRGB color [(1, 0, 0)] of alpha [a] at location 1. *)
Definition red_coords : list JsVal := [VNum 1%float; VNum 0%float; VNum 0%float].

Definition red (a : number) : PlainColorObject :=
  {| space := srgb; coords := 0; alpha := a |}.

Definition red_store (a : number) : heap := [HArray red_coords; HColor (red a)].

(** The same store once the coordinates are copied (line 47), then once
    [serializeCoords] has returned its array; the trace up to line 56. *)
Definition red_args : list JsVal := [VStr "1"; VStr "0"; VStr "0"].

Definition red_copied (a : number) : heap := (red_store a ++ [HArray red_coords])%list.

Definition red_serialized (a : number) : heap :=
  (red_store a ++ [HArray red_coords; HArray red_args])%list.

Definition red_trace : list Event :=
  [EGetColor (CObject 1) (Ret 1); ECheckInGamut 1 (Ret true)].

(** A store with an out-of-range sRGB color of alpha [a] at location 1. *)
Definition wide_coords : list JsVal := [VNum 1.5%float; VNum (-0.25)%float; VNum 0.5%float].

Definition wide (a : number) : PlainColorObject :=
  {| space := srgb; coords := 0; alpha := a |}.

Definition wide_store (a : number) : heap := [HArray wide_coords; HColor (wide a)].

(** A store with a color of a space that registers no format. *)
Definition xyz : ColorSpace := {| space_ref := 2; id := "xyz"; cssId := None |}.

Definition xyz_color : PlainColorObject := {| space := xyz; coords := 0; alpha := 1%float |}.

Definition xyz_store : heap :=
  [HArray [VNum 1%float; VNum 0%float; VNum 0%float]; HColor xyz_color].



(** A store with a display-p3 color at location 1. *)
Definition p3_color : PlainColorObject := {| space := p3; coords := 0; alpha := 1%float |}.

Definition p3_store : heap :=
  [HArray [VNum 0%float; VNum 0.5%float; VNum 1%float]; HColor p3_color].

Definition with_format (f : string) : Options :=
  {| o_precision := VUndefined; o_format := Some f; o_inGamut := VUndefined;
     o_coords := VUndefined; o_alpha := VUndefined |}.

Definition with_alpha (a : JsVal) : Options :=
  {| o_precision := VUndefined; o_format := None; o_inGamut := VUndefined;
     o_coords := VUndefined; o_alpha := a |}.

Definition with_format_alpha (f : string) (a : JsVal) : Options :=
  {| o_precision := VUndefined; o_format := Some f; o_inGamut := VUndefined;
     o_coords := VUndefined; o_alpha := a |}.

Definition with_precision_alpha (p a : JsVal) : Options :=
  {| o_precision := p; o_format := None; o_inGamut := VUndefined;
     o_coords := VUndefined; o_alpha := a |}.

Definition with_format_inGamut (f : string) (g : JsVal) : Options :=
  {| o_precision := VUndefined; o_format := Some f; o_inGamut := g;
     o_coords := VUndefined; o_alpha := VUndefined |}.

Definition run (h : heap) (options : Options) : outcome string :=
  fst (serialize env (CObject 1) options (h, [])).

End Demo.

(** ** Tactics *)

(** Case analysis on the membership of an event in an explicit trace. *)
Ltac event_cases :=
  repeat match goal with
         | H : _ \/ _ |- _ => destruct H
         | H : False |- _ => destruct H
         | H : _ /\ _ |- _ => destruct H
         | H : ex _ |- _ => destruct H
         | H : @eq Event _ _ |- _ => first [discriminate H | injection H as; subst]
         | H : @eq (outcome _) (Ret _) _ |- _ =>
           first [discriminate H | injection H as; subst]
         end.

(** Closes a goal about a run in the concrete environment. *)
Ltac demo_run := first [ reflexivity | discriminate ].

(** ** Running the monad *)

Lemma bind_run {A B} (m : M A) (k : A -> M B) (st : state) :
  bind m k st =
    match m st with
    | (Ret a, st') => k a st'
    | (Throw e, st') => (Throw e, st')
    end.
Proof. reflexivity. Qed.

Lemma bind_ret_run {A B} (m : M A) (k : A -> M B) st a st' :
  m st = (Ret a, st') -> bind m k st = k a st'.
Proof. intros H. rewrite bind_run, H. reflexivity. Qed.

Lemma bind_throw_run {A B} (m : M A) (k : A -> M B) st e st' :
  m st = (Throw e, st') -> bind m k st = (Throw e, st').
Proof. intros H. rewrite bind_run, H. reflexivity. Qed.

Lemma bind_assoc_run {A B C} (m : M A) (f : A -> M B) (g : B -> M C) st :
  bind (bind m f) g st = bind m (fun x => bind (f x) g) st.
Proof. unfold bind. destruct (m st) as [[a|e] st']; reflexivity. Qed.

Lemma bind_ret_l {A B} (a : A) (k : A -> M B) st : bind (ret a) k st = k a st.
Proof. reflexivity. Qed.

Lemma call_run {A} (ev : outcome A -> Event) (f : ext A) h tr r h' :
  f h = (r, h') -> call ev f (h, tr) = (r, (h', (tr ++ [ev r])%list)).
Proof. intros H. unfold call. simpl. rewrite H. reflexivity. Qed.

Lemma readColor_run l h tr c :
  h !! l = Some (HColor c) -> readColor l (h, tr) = (Ret c, (h, tr)).
Proof. intros H. unfold readColor. simpl. rewrite H. reflexivity. Qed.

Lemma readArray_run l h tr xs :
  h !! l = Some (HArray xs) -> readArray l (h, tr) = (Ret xs, (h, tr)).
Proof. intros H. unfold readArray. simpl. rewrite H. reflexivity. Qed.

(** ** Format resolution (lines 29-35) *)

Section Resolution.

Variable E : Env.

(** Once [getColor] has returned a color object, [serialize] goes on with the
    resolved format: nothing is thrown in between. *)
Lemma serialize_after_getColor input options h tr c h1 col :
  getColor E input h = (Ret c, h1) ->
  h1 !! c = Some (HColor col) ->
  let formatId := format_option options in
  let fmt := resolveFormat E (space col) formatId in
  serialize E input options (h, tr) =
    (color <- match f_space fmt with
              | Some s => if negb (space_same s (space col))
                          then call (ETo c s) (to E c s) else ret c
              | None => ret c
              end ;;
     coords <- gamutStage E options fmt color ;;
     renderStage E options formatId fmt color coords)
      (h1, (tr ++ [EGetColor input (Ret c)])%list).
Proof.
  intros Hg Hc formatId fmt. unfold serialize, convertStage.
  fold formatId. rewrite !bind_assoc_run.
  erewrite bind_ret_run by (apply call_run; exact Hg).
  rewrite bind_assoc_run.
  erewrite bind_ret_run by (apply readColor_run; exact Hc).
  fold fmt.
  destruct (f_space fmt) as [s|]; [|reflexivity].
  destruct (negb (space_same s (space col))); [|reflexivity].
  rewrite bind_assoc_run. reflexivity.
Qed.

(** C2: the format descriptor is the first hit of the chain: the own space's
    format of the requested id ([options.format], ["default"] when absent), a
    format of that id anywhere in the registry, the own space's ["default"]
    format, the hard-coded fallback.  No step of the chain throws: whatever
    the id, [serialize] goes on with the resolved format, and with the
    fallback when nothing matches. *)
Theorem C2_format_resolution input options h tr c h1 col :
  getColor E input h = (Ret c, h1) ->
  h1 !! c = Some (HColor col) ->
  let formatId := match o_format options with Some f => f | None => "default" end in
  exists fmt,
    serialize E input options (h, tr) =
      (color <- match f_space fmt with
                | Some s => if negb (space_same s (space col))
                            then call (ETo c s) (to E c s) else ret c
                | None => ret c
                end ;;
       coords <- gamutStage E options fmt color ;;
       renderStage E options formatId fmt color coords)
        (h1, (tr ++ [EGetColor input (Ret c)])%list)
    /\ (forall f, getFormat E (space col) formatId = Some f -> fmt = f)
    /\ (forall f, getFormat E (space col) formatId = None ->
                  findFormat E formatId = Some f -> fmt = f)
    /\ (forall f, getFormat E (space col) formatId = None ->
                  findFormat E formatId = None ->
                  getFormat E (space col) "default" = Some f -> fmt = f)
    /\ (getFormat E (space col) formatId = None ->
        findFormat E formatId = None ->
        getFormat E (space col) "default" = None -> fmt = DEFAULT_FORMAT E).
Proof.
  intros Hg Hc formatId.
  exists (resolveFormat E (space col) formatId). split.
  - exact (serialize_after_getColor input options h tr c h1 col Hg Hc).
  - unfold resolveFormat.
    destruct (getFormat E (space col) formatId) as [f1|];
      [repeat split; intros; congruence|].
    destruct (findFormat E formatId) as [f2|];
      [repeat split; intros; congruence|].
    destruct (getFormat E (space col) "default") as [f3|];
      repeat split; intros; congruence.
Qed.

End Resolution.

Lemma C2_witness :
  fst (serialize Demo.env (CObject 1) (Demo.with_format "nope") (Demo.xyz_store, []))
  = Ret "color(xyz 1 0 0)".
Proof.
  destruct (C2_format_resolution Demo.env (CObject 1) (Demo.with_format "nope")
              Demo.xyz_store [] 1 Demo.xyz_store Demo.xyz_color eq_refl eq_refl)
    as (fmt & Hrun & _ & _ & _ & Hfallback).
  rewrite Hrun, (Hfallback eq_refl eq_refl eq_refl).
  vm_compute. reflexivity.
Defined.

(** ** The stages of one run *)

Lemma serialize_stages E input options st fmt color st1 w st2 :
  convertStage E input (format_option options) st = (Ret (fmt, color), st1) ->
  gamutStage E options fmt color st1 = (Ret w, st2) ->
  serialize E input options st
  = renderStage E options (format_option options) fmt color w st2.
Proof.
  intros Hc Hg. unfold serialize.
  erewrite bind_ret_run by exact Hc. simpl.
  erewrite bind_ret_run by exact Hg. reflexivity.
Qed.

(** [args.unshift] leaves the color object where it is: an array is not a
    color object. *)
Lemma lookup_color_insert_array (h : heap) args color col xs ys :
  h !! color = Some (HColor col) ->
  h !! args = Some (HArray xs) ->
  <[args := HArray ys]> h !! color = Some (HColor col).
Proof.
  intros Hc Ha. rewrite list_lookup_insert_ne; [exact Hc|].
  intros ->. rewrite Hc in Ha. discriminate.
Qed.

Lemma lookup_insert_array (h : heap) args (xs ys : list JsVal) :
  h !! args = Some (HArray xs) ->
  <[args := HArray ys]> h !! args = Some (HArray ys).
Proof.
  intros Ha. apply list_lookup_insert_eq. eapply lookup_lt_Some. exact Ha.
Qed.

Lemma css_id_own fmt sp i :
  truthy_str (str_or (f_id fmt) (first_id fmt)) = Some i -> css_id fmt sp = i.
Proof.
  unfold css_id, truthy_str, str_or.
  destruct (f_id fmt) as [a|]; [destruct (a =? "") eqn:Ha|].
  - destruct (first_id fmt) as [b|]; [|discriminate].
    destruct (b =? "") eqn:Hb; [discriminate|]. intros [= <-]. reflexivity.
  - rewrite Ha. intros [= <-]. reflexivity.
  - destruct (first_id fmt) as [b|]; [|discriminate].
    destruct (b =? "") eqn:Hb; [discriminate|]. intros [= <-]. reflexivity.
Qed.

Lemma read_cssId_run fmt color h tr col :
  h !! color = Some (HColor col) ->
  read_cssId fmt color (h, tr) = (Ret (css_id fmt (space col)), (h, tr)).
Proof.
  intros Hcol. unfold read_cssId.
  destruct (truthy_str (str_or (f_id fmt) (first_id fmt))) as [i|] eqn:Hi.
  - rewrite (css_id_own _ _ _ Hi). reflexivity.
  - erewrite bind_ret_run by (apply readColor_run; exact Hcol). reflexivity.
Qed.

(** The run of lines 64-103 once [format.serializeCoords] has returned. *)
Lemma functionalStage_run E options fmt color w h tr args h1 col xs :
  f_serializeCoords fmt w (precision_option E options) (o_coords options) h
  = (Ret args, h1) ->
  h1 !! color = Some (HColor col) ->
  h1 !! args = Some (HArray xs) ->
  let name := functional_name fmt in
  let xs' := if name =? "color" then VStr (css_id fmt (space col)) :: xs else xs in
  functionalStage E options fmt color w (h, tr)
  = (Ret (name ++ "(" ++ join E (if f_commas fmt then ", " else " ") xs'
               ++ strAlpha E options fmt (alpha col) ++ ")"),
     (if name =? "color" then <[args := HArray xs']> h1 else h1,
      (tr ++ [ESerializeCoords w (precision_option E options) (o_coords options)
                               (Ret args)])%list)).
Proof.
  intros Hsc Hcol Hargs name xs'. unfold functionalStage. fold name.
  erewrite bind_ret_run by (apply call_run; exact Hsc).
  subst xs'. destruct (name =? "color").
  - rewrite !bind_assoc_run.
    erewrite bind_ret_run by (apply read_cssId_run; exact Hcol).
    rewrite !bind_assoc_run.
    erewrite bind_ret_run by (apply readArray_run; exact Hargs).
    rewrite bind_run. unfold writeArray at 1. simpl fst. simpl snd.
    erewrite bind_ret_run
      by (apply readColor_run; eapply lookup_color_insert_array; eassumption).
    erewrite bind_ret_run
      by (apply readArray_run; eapply lookup_insert_array; eassumption).
    reflexivity.
  - rewrite bind_ret_l.
    erewrite bind_ret_run by (apply readColor_run; exact Hcol).
    erewrite bind_ret_run by (apply readArray_run; exact Hargs).
    reflexivity.
Qed.

(** ** Rounding to significant digits *)

Lemma digits_upto_spec fuel r :
  (0 < r < 2 ^ Z.of_nat fuel)%Z ->
  (1 <= Util.digits_upto fuel r
   /\ 10 ^ (Util.digits_upto fuel r - 1) <= r < 10 ^ Util.digits_upto fuel r)%Z.
Proof.
  revert r. induction fuel as [|fuel IH]; intros r Hr.
  - simpl in Hr. lia.
  - cbn [Util.digits_upto]. destruct (r <? 10)%Z eqn:Hlt.
    + apply Z.ltb_lt in Hlt. simpl. lia.
    + apply Z.ltb_ge in Hlt.
      assert (Hq : (0 < r / 10 < 2 ^ Z.of_nat fuel)%Z).
      { split; [apply Z.div_str_pos; lia|].
        apply Z.div_lt_upper_bound; [lia|].
        rewrite Nat2Z.inj_succ, Z.pow_succ_r in Hr by lia. lia. }
      destruct (IH _ Hq) as (H1 & Hlo & Hhi).
      set (n := Util.digits_upto fuel (r / 10)) in *.
      replace (1 + n - 1)%Z with (Z.succ (n - 1)) by lia.
      replace (1 + n)%Z with (Z.succ n) by lia.
      rewrite !Z.pow_succ_r by lia.
      pose proof (Z.div_mod r 10 ltac:(lia)) as Hdm.
      pose proof (Z.mod_pos_bound r 10 ltac:(lia)) as Hm.
      lia.
Qed.

Lemma digits_spec r :
  (0 < r)%Z ->
  (1 <= Util.digits r /\ 10 ^ (Util.digits r - 1) <= r < 10 ^ Util.digits r)%Z.
Proof.
  intros Hr. apply digits_upto_spec. split; [exact Hr|].
  rewrite Nat2Z.inj_succ, Z2Nat.id by apply Z.log2_nonneg.
  apply Z.log2_spec, Hr.
Qed.

(** [Util.round_significant] rounds to significant digits. *)
Lemma round_significant_rounded p r d :
  (0 < p)%Z -> (0 < r)%Z -> rounded p (r, d) (Util.round_significant p (r, d)).
Proof.
  intros Hp Hr. unfold Util.round_significant.
  destruct (digits_spec r Hr) as (Hn & Hlo & Hhi).
  set (n := Util.digits r) in *.
  destruct ((0 <? p)%Z && (p <? n)%Z) eqn:Hc.
  - apply andb_true_iff in Hc as [_ Hpn]. apply Z.ltb_lt in Hpn.
    right. cbn [fst snd].
    replace (d + (n - p) - d)%Z with (n - p)%Z by lia.
    set (k := (n - p)%Z) in *.
    assert (HD : (10 ^ k = 2 * (5 * 10 ^ (k - 1)))%Z).
    { replace k with (Z.succ (k - 1)) at 1 by lia.
      rewrite Z.pow_succ_r by lia. lia. }
    assert (HH : (10 ^ k / 2 = 5 * 10 ^ (k - 1))%Z).
    { rewrite HD, Z.mul_comm, Z.div_mul by lia. reflexivity. }
    assert (Hpos : (0 < 10 ^ (k - 1))%Z) by (apply Z.pow_pos_nonneg; lia).
    assert (Hn1 : (10 ^ (n - 1) = 10 ^ (p - 1) * 10 ^ k)%Z).
    { rewrite <- Z.pow_add_r by lia. f_equal. lia. }
    assert (Hn0 : (10 ^ n = 10 ^ p * 10 ^ k)%Z).
    { rewrite <- Z.pow_add_r by lia. f_equal. lia. }
    rewrite HH.
    set (D := (10 ^ k)%Z) in *. set (H := (5 * 10 ^ (k - 1))%Z) in *.
    assert (HDp : (0 < D)%Z) by lia.
    pose proof (Z.div_mod (r + H) D ltac:(lia)) as Hdm.
    pose proof (Z.mod_pos_bound (r + H) D HDp) as Hm.
    set (m := ((r + H) / D)%Z) in *.
    assert (Hpp : (0 < 10 ^ (p - 1))%Z) by (apply Z.pow_pos_nonneg; lia).
    split; [lia|]. split; [split|].
    + apply Z.div_le_lower_bound; [lia|]. lia.
    + assert ((r + H) / D < 10 ^ p + 1)%Z; [|lia].
      apply Z.div_lt_upper_bound; [lia|]. lia.
    + nia.
  - left. cbn [fst snd]. split; [reflexivity|]. split; [reflexivity|].
    apply andb_false_iff in Hc as [Hc|Hc].
    + apply Z.ltb_ge in Hc. lia.
    + apply Z.ltb_ge in Hc. eapply Z.lt_le_trans; [exact Hhi|].
      apply Z.pow_le_mono_r; lia.
Qed.

Lemma exact_decimal_pos m e : (0 < fst (Util.exact_decimal m e))%Z.
Proof.
  unfold Util.exact_decimal. destruct (0 <=? e)%Z eqn:He; cbn [fst].
  - apply Z.leb_le in He. apply Z.mul_pos_pos; [lia|]. apply Z.pow_pos_nonneg; lia.
  - apply Z.leb_gt in He. apply Z.mul_pos_pos; [lia|]. apply Z.pow_pos_nonneg; lia.
Qed.

(** The formatter of the concrete environment rounds as the spec has it. *)
Lemma demo_rounds : rounds_significant Demo.env.
Proof.
  intros x p unit neg mant e Hx Hp.
  exists (Util.round_significant (Util.integer_of p) (Util.exact_decimal mant e)).
  split.
  - pose proof (exact_decimal_pos mant e) as Hr.
    destruct (Util.exact_decimal mant e) as [r d]. cbn [fst] in Hr.
    apply round_significant_rounded; assumption.
  - simpl. unfold Util.serializeNumber. rewrite Hx. reflexivity.
Qed.

(** ** Functional syntax (lines 64-103) *)

Lemma str_or_falsy a b : falsy a -> str_or a b = b.
Proof. intros [-> | ->]; reflexivity. Qed.

Lemma str_or_truthy i b : i <> "" -> str_or (Some i) b = Some i.
Proof. intros Hi. simpl. apply String.eqb_neq in Hi. rewrite Hi. reflexivity. Qed.

Lemma alpha_separator (commas : bool) t :
  (if commas then "," else " /") ++ " " ++ t = (if commas then ", " else " / ") ++ t.
Proof. destruct commas; reflexivity. Qed.

Lemma is_true_iff v : is_true v = true <-> v = VBool true.
Proof.
  split; [|intros ->; reflexivity].
  destruct v as [| |[]| | |]; simpl; congruence.
Qed.

Lemma is_false_iff v : is_false v = true <-> v = VBool false.
Proof.
  split; [|intros ->; reflexivity].
  destruct v as [| |[]| | |]; simpl; congruence.
Qed.

Lemma is_true_no v : v <> VBool true -> is_true v = false.
Proof.
  intros H. destruct (is_true v) eqn:Ht; [|reflexivity].
  apply is_true_iff in Ht. contradiction.
Qed.

Lemma is_false_no v : v <> VBool false -> is_false v = false.
Proof.
  intros H. destruct (is_false v) eqn:Ht; [|reflexivity].
  apply is_false_iff in Ht. contradiction.
Qed.

Lemma is_string_lit_iff v s : is_string_lit v s = true <-> v = VStr s.
Proof.
  destruct v; simpl; try (split; congruence).
  rewrite String.eqb_eq. split; congruence.
Qed.

Section FunctionalSyntax.

Variable E : Env.
Variables (input : ColorTypes) (options : Options) (st st1 : state).
Variables (fmt : Format) (color w args : loc) (h h1 : heap) (tr : list Event).
Variables (col : PlainColorObject) (xs : list JsVal).

(** The run reaches line 64 with the format [fmt], the color object [color]
    and the working coordinates [w]; [format.serializeCoords] returns the
    array [args], of elements [xs]. *)
Hypothesis Hconvert :
  convertStage E input (format_option options) st = (Ret (fmt, color), st1).
Hypothesis Hgamut : gamutStage E options fmt color st1 = (Ret w, (h, tr)).
Hypothesis Hfunctional : f_type fmt <> "custom".
Hypothesis HserializeCoords :
  f_serializeCoords fmt w (precision_option E options) (o_coords options) h
  = (Ret args, h1).
Hypothesis Hcolor : h1 !! color = Some (HColor col).
Hypothesis Hargs : h1 !! args = Some (HArray xs).

Lemma serialize_functional :
  fst (serialize E input options st)
  = Ret (functional_name fmt ++ "("
         ++ join E (if f_commas fmt then ", " else " ")
                 (if functional_name fmt =? "color"
                  then VStr (css_id fmt (space col)) :: xs else xs)
         ++ strAlpha E options fmt (alpha col) ++ ")").
Proof.
  rewrite (serialize_stages _ _ _ _ _ _ _ _ _ Hconvert Hgamut).
  unfold renderStage. apply String.eqb_neq in Hfunctional. rewrite Hfunctional.
  rewrite (functionalStage_run _ _ _ _ _ _ _ _ _ _ _ HserializeCoords Hcolor Hargs).
  reflexivity.
Qed.

(** C3, as amended: for a functional format the string is
    [name(args joined by ", " or " ")] followed, when alpha is included, by
    [", a"] or [" / a"], [a] being the text of alpha, before the closing
    parenthesis; when the name is the
    generic ["color"], the first argument is the format's own id, else the
    first of the format's ids, else the space's CSS-facing id, else the space's
    plain id. *)
Theorem C3_functional_syntax :
  let name := match f_name fmt with
              | Some n => if n =? "" then "color" else n
              | None => "color"
              end in
  exists first suffix,
    fst (serialize E input options st)
    = Ret (name ++ "("
           ++ join E (if f_commas fmt then ", " else " ")
                   (if name =? "color" then VStr first :: xs else xs)
           ++ suffix ++ ")")
    /\ (suffix = ""
        \/ suffix = (if f_commas fmt then ", " else " / ")
                    ++ alpha_text E (precision_option E options)
                                  (normalize_alphaFormat (o_alpha options)) (alpha col))
    /\ (forall i, f_id fmt = Some i -> i <> "" -> first = i)
    /\ (falsy (f_id fmt) ->
        forall i rest, f_ids fmt = Some (i :: rest) -> i <> "" -> first = i)
    /\ (falsy (f_id fmt) -> falsy (first_id fmt) ->
        forall i, cssId (space col) = Some i -> i <> "" -> first = i)
    /\ (falsy (f_id fmt) -> falsy (first_id fmt) -> falsy (cssId (space col)) ->
        first = id (space col)).
Proof.
  intros name.
  exists (css_id fmt (space col)), (strAlpha E options fmt (alpha col)).
  split; [|split; [|repeat split]].
  - rewrite serialize_functional.
    replace (functional_name fmt) with name; [reflexivity|].
    unfold functional_name, name. destruct (f_name fmt) as [n|]; [|reflexivity].
    simpl. destruct (n =? ""); reflexivity.
  - unfold strAlpha. destruct (serializeAlpha _ _ _); [right|left; reflexivity].
    apply alpha_separator.
  - intros i Hi Hne. unfold css_id. rewrite Hi, (str_or_truthy _ _ Hne). reflexivity.
  - intros Hf i rest Hi Hne. unfold css_id. rewrite (str_or_falsy _ _ Hf).
    unfold first_id. rewrite Hi, (str_or_truthy _ _ Hne). reflexivity.
  - intros Hf Hf' i Hi Hne. unfold css_id.
    rewrite (str_or_falsy _ _ Hf), (str_or_falsy _ _ Hf'), Hi, (str_or_truthy _ _ Hne).
    reflexivity.
  - intros Hf Hf' Hf''. unfold css_id.
    rewrite (str_or_falsy _ _ Hf), (str_or_falsy _ _ Hf'), (str_or_falsy _ _ Hf'').
    reflexivity.
Qed.

Lemma serialize_functional_text :
  fst (serialize E input options st)
  = Ret (functional_text E fmt (space col) xs (strAlpha E options fmt (alpha col))).
Proof. exact serialize_functional. Qed.

(** The suffix when alpha is included, the suffix when it is not. *)
Lemma strAlpha_shown :
  serializeAlpha (normalize_alphaFormat (o_alpha options)) fmt (alpha col) = true ->
  strAlpha E options fmt (alpha col)
  = (if f_commas fmt then ", " else " / ")
    ++ alpha_text E (precision_option E options)
                  (normalize_alphaFormat (o_alpha options)) (alpha col).
Proof. intros H. unfold strAlpha. rewrite H. apply alpha_separator. Qed.

Lemma strAlpha_hidden :
  serializeAlpha (normalize_alphaFormat (o_alpha options)) fmt (alpha col) = false ->
  strAlpha E options fmt (alpha col) = "".
Proof. intros H. unfold strAlpha. rewrite H. reflexivity. Qed.

(** C4: for a format without an alpha flag, with no [alpha] option the suffix
    is there exactly when [alpha < 1] (not at 1, there at 0.5); with
    [alpha: true] it is there whatever alpha is; with [alpha: "<percentage>"],
    alpha 0.5 and a precision other than [null], the text of alpha is what the
    number formatter makes of 50 with the unit [%]. *)
Theorem C4_alpha_policy :
  f_alpha fmt = VUndefined ->
  let out := fst (serialize E input options st) in
  let text suffix := Ret (functional_text E fmt (space col) xs suffix) in
  let sep := if f_commas fmt then ", " else " / " in
  let precision := precision_option E options in
  let plain := match precision with
               | VNull => number_toString E (alpha col)
               | p => serializeNumber E (alpha col) p None
               end in
  (o_alpha options = VUndefined ->
     out = text (if PrimFloat.ltb (alpha col) 1 then sep ++ plain else "")
     /\ (alpha col = 1%float -> out = text "")
     /\ (alpha col = 0.5%float -> out = text (sep ++ plain)))
  /\ (o_alpha options = VBool true -> out = text (sep ++ plain))
  /\ (o_alpha options = VStr "<percentage>" -> alpha col = 0.5%float ->
      precision <> VNull ->
      out = text (sep ++ serializeNumber E 50%float precision (Some "%"))
      /\ (serializeNumber E 50%float precision (Some "%") = "50%" ->
          out = text (sep ++ "50%"))).
Proof.
  intros Hflag out text sep precision plain.
  assert (Hplain : forall o, alphaType o = VStr "<number>" ->
            alpha_text E precision o (alpha col) = plain).
  { intros o Ho. unfold alpha_text, plain. rewrite Ho. simpl.
    destruct precision; reflexivity. }
  subst out text. cbv beta. rewrite serialize_functional_text.
  split; [|split].
  - intros Ho.
    assert (Hs : forall t, serializeAlpha VUndefined fmt (alpha col) = t ->
              strAlpha E options fmt (alpha col) = if t then sep ++ plain else "").
    { intros [] Ht.
      - rewrite strAlpha_shown by (rewrite Ho; exact Ht).
        rewrite Ho. simpl normalize_alphaFormat. rewrite Hplain; reflexivity.
      - rewrite strAlpha_hidden by (rewrite Ho; exact Ht). reflexivity. }
    assert (Hlt : serializeAlpha VUndefined fmt (alpha col)
                  = PrimFloat.ltb (alpha col) 1).
    { unfold serializeAlpha. rewrite Hflag. reflexivity. }
    split; [|split].
    + rewrite (Hs _ Hlt). reflexivity.
    + intros Ha. rewrite (Hs _ Hlt), Ha. reflexivity.
    + intros Ha. rewrite (Hs _ Hlt), Ha. reflexivity.
  - intros Ho. rewrite strAlpha_shown by (rewrite Ho; reflexivity).
    rewrite Ho. simpl normalize_alphaFormat. rewrite Hplain; reflexivity.
  - intros Ho Ha Hp.
    assert (Hout : strAlpha E options fmt (alpha col)
                   = sep ++ serializeNumber E 50%float precision (Some "%")).
    { rewrite strAlpha_shown
        by (rewrite Ho; unfold serializeAlpha; rewrite Hflag, Ha; reflexivity).
      rewrite Ho, Ha. unfold alpha_text. fold precision.
      destruct precision; try reflexivity. contradiction. }
    rewrite Hout. split; [reflexivity|]. intros ->. reflexivity.
Qed.

(** C5, as amended: a per-call [include: true] forces the alpha suffix; so
    does the format's alpha flag [true], even against a per-call
    [include: false]; otherwise a per-call [include: false] or a format flag
    [false] suppresses it; otherwise it is there exactly when [alpha < 1]. *)
Theorem C5_alpha_precedence :
  let out := fst (serialize E input options st) in
  let include := opt_chain (normalize_alphaFormat (o_alpha options)) "include" in
  let sep := if f_commas fmt then ", " else " / " in
  let shown :=
    Ret (functional_text E fmt (space col) xs
           (sep ++ alpha_text E (precision_option E options)
                              (normalize_alphaFormat (o_alpha options)) (alpha col))) in
  let hidden := Ret (functional_text E fmt (space col) xs "") in
  (forall b, o_alpha options = VBool b -> include = VBool b)
  /\ (forall props, o_alpha options = VObj props -> include = lookup_prop "include" props)
  /\ (include = VBool true -> out = shown)
  /\ (f_alpha fmt = VBool true -> out = shown)
  /\ (include = VBool false -> f_alpha fmt <> VBool true -> out = hidden)
  /\ (f_alpha fmt = VBool false -> include <> VBool true -> out = hidden)
  /\ (include <> VBool true -> include <> VBool false ->
      f_alpha fmt <> VBool true -> f_alpha fmt <> VBool false ->
      out = if PrimFloat.ltb (alpha col) 1 then shown else hidden).
Proof.
  intros out include sep shown hidden. subst out shown hidden. cbv beta.
  rewrite serialize_functional_text.
  split; [intros b Hb; subst include; rewrite Hb; reflexivity|].
  split; [intros props Hp; subst include; rewrite Hp; reflexivity|].
  repeat split.
  - intros Hi. rewrite strAlpha_shown; [reflexivity|].
    unfold serializeAlpha. fold include. rewrite Hi. reflexivity.
  - intros Hf. rewrite strAlpha_shown; [reflexivity|].
    unfold serializeAlpha. rewrite Hf. simpl is_true. rewrite orb_true_r. reflexivity.
  - intros Hi Hf. rewrite strAlpha_hidden; [reflexivity|].
    unfold serializeAlpha. fold include. rewrite Hi, (is_true_no _ Hf). reflexivity.
  - intros Hf Hi. rewrite strAlpha_hidden; [reflexivity|].
    unfold serializeAlpha. fold include. rewrite Hf, (is_true_no _ Hi). simpl.
    rewrite andb_false_r. reflexivity.
  - intros Hi Hi' Hf Hf'.
    assert (Hs : serializeAlpha (normalize_alphaFormat (o_alpha options)) fmt (alpha col)
                 = PrimFloat.ltb (alpha col) 1).
    { unfold serializeAlpha. fold include.
      rewrite (is_true_no _ Hi), (is_true_no _ Hf), (is_false_no _ Hi'),
        (is_false_no _ Hf'). reflexivity. }
    destruct (PrimFloat.ltb (alpha col) 1).
    + rewrite strAlpha_shown by exact Hs. reflexivity.
    + rewrite strAlpha_hidden by exact Hs. reflexivity.
Qed.

(** C7: when alpha is included and the precision is not [null], alpha is
    multiplied by 100 and given the unit [%] exactly when the resolved alpha
    type is ["<percentage>"], then handed to the number formatter with the
    precision; when the precision is [null], alpha is written as it is,
    without a unit, whatever the alpha type.  With a formatter that rounds to
    significant digits, as the spec has [util.serializeNumber] do, the text of
    alpha is then the decimal of alpha, or of alpha times 100, rounded to as
    many significant digits as the precision says, followed by [%] in the
    second case. *)
Theorem C7_alpha_unit_and_precision :
  serializeAlpha (normalize_alphaFormat (o_alpha options)) fmt (alpha col) = true ->
  let out := fst (serialize E input options st) in
  let type := js_nullish (opt_chain (normalize_alphaFormat (o_alpha options)) "type")
                         (VStr "<number>") in
  let sep := if f_commas fmt then ", " else " / " in
  let precision := precision_option E options in
  let text a := Ret (functional_text E fmt (space col) xs (sep ++ a)) in
  (forall s, o_alpha options = VStr s -> type = VStr s)
  /\ (forall props, o_alpha options = VObj props ->
       type = js_nullish (lookup_prop "type" props) (VStr "<number>"))
  /\ (precision <> VNull -> type = VStr "<percentage>" ->
      out = text (serializeNumber E (PrimFloat.mul (alpha col) 100) precision (Some "%")))
  /\ (precision <> VNull -> type <> VStr "<percentage>" ->
      out = text (serializeNumber E (alpha col) precision None))
  /\ (precision = VNull -> out = text (number_toString E (alpha col)))
  /\ (rounds_significant E ->
      forall p neg mant e,
        precision = VNum p ->
        (0 < Util.integer_of p)%Z ->
        let percent := is_string_lit type "<percentage>" in
        Prim2SF (if percent then PrimFloat.mul (alpha col) 100 else alpha col)
        = S754_finite neg mant e ->
        exists mk,
          rounded (Util.integer_of p) (Util.exact_decimal mant e) mk
          /\ out = text (Util.show_decimal neg mk ++ (if percent then "%" else ""))).
Proof.
  intros Hshown out type sep precision text. subst out text. cbv beta.
  rewrite serialize_functional_text, (strAlpha_shown Hshown).
  fold sep precision.
  split; [intros s Hs; subst type; rewrite Hs; reflexivity|].
  split; [intros props Hp; subst type; rewrite Hp; reflexivity|].
  unfold alpha_text, alphaType. fold type.
  repeat split.
  - intros Hp Ht. rewrite Ht. simpl is_string_lit.
    destruct precision; try reflexivity. contradiction.
  - intros Hp Ht.
    destruct (is_string_lit type "<percentage>") eqn:Hl.
    + apply is_string_lit_iff in Hl. contradiction.
    + destruct precision; try reflexivity. contradiction.
  - intros ->. reflexivity.
  - intros Hround p neg mant e Hp Hpos Hx. rewrite Hp.
    destruct (is_string_lit type "<percentage>").
    + destruct (Hround _ p (Some "%") neg mant e Hx Hpos) as (mk & Hmk & Htext).
      exists mk. split; [exact Hmk|]. rewrite Htext. reflexivity.
    + destruct (Hround _ p None neg mant e Hx Hpos) as (mk & Hmk & Htext).
      exists mk. split; [exact Hmk|]. rewrite Htext. reflexivity.
Qed.

End FunctionalSyntax.

Lemma C4_witness :
  Demo.run (Demo.red_store 0.5%float) (Demo.with_alpha (VStr "<percentage>"))
  = Ret "color(srgb 1 0 0 / 50%)".
Proof.
  pose proof (C4_alpha_policy Demo.env (CObject 1) (Demo.with_alpha (VStr "<percentage>"))
                (Demo.red_store 0.5%float, [])
                (Demo.red_store 0.5%float, [EGetColor (CObject 1) (Ret 1)])
                Demo.color_format 1 2 3
                (Demo.red_copied 0.5%float) (Demo.red_serialized 0.5%float)
                Demo.red_trace (Demo.red 0.5%float) Demo.red_args) as H.
  destruct H as (_ & _ & Hpct); [demo_run ..|].
  destruct Hpct as [_ H50]; [demo_run ..|].
  unfold Demo.run. rewrite H50; reflexivity.
Defined.

(** A [color()] format with an id of its own writes that id, not the id of
    the space. *)
Lemma C3_counterexample :
  functional_name Demo.tagged_format = "color"
  /\ cssId Demo.srgb = None /\ id Demo.srgb = "srgb"
  /\ Demo.run (Demo.red_store 1%float) (Demo.with_format "tagged")
     = Ret "color(tagged 1 0 0)"
  /\ Demo.run (Demo.red_store 1%float) (Demo.with_format "tagged")
     <> Ret "color(srgb 1 0 0)".
Proof. repeat split; try reflexivity. discriminate. Qed.

Lemma C3_witness :
  exists first suffix,
    Demo.run (Demo.red_store 0.5%float) no_options
    = Ret ("color(" ++ join Demo.env " " (VStr first :: Demo.red_args) ++ suffix ++ ")")
    /\ first = "srgb".
Proof.
  destruct (C3_functional_syntax Demo.env (CObject 1) no_options
              (Demo.red_store 0.5%float, [])
              (Demo.red_store 0.5%float, [EGetColor (CObject 1) (Ret 1)])
              Demo.color_format 1 2 3
              (Demo.red_copied 0.5%float) (Demo.red_serialized 0.5%float)
              Demo.red_trace (Demo.red 0.5%float) Demo.red_args)
    as (first & suffix & Hout & _ & _ & _ & _ & Hid); [demo_run ..|].
  exists first, suffix. split; [exact Hout|].
  apply Hid; left; reflexivity.
Defined.

(** The format's alpha flag wins over a per-call [alpha: false]. *)
Lemma C5_counterexample :
  f_alpha Demo.rgba_format = VBool true
  /\ o_alpha (Demo.with_format_alpha "rgba" (VBool false)) = VBool false
  /\ Demo.run (Demo.red_store 1%float) (Demo.with_format_alpha "rgba" (VBool false))
     = Ret "rgba(1, 0, 0, 1)".
Proof. repeat split. Qed.

Lemma C5_witness :
  Demo.run (Demo.red_store 0.5%float) (Demo.with_alpha (VBool false))
  = Ret "color(srgb 1 0 0)".
Proof.
  destruct (C5_alpha_precedence Demo.env (CObject 1) (Demo.with_alpha (VBool false))
              (Demo.red_store 0.5%float, [])
              (Demo.red_store 0.5%float, [EGetColor (CObject 1) (Ret 1)])
              Demo.color_format 1 2 3
              (Demo.red_copied 0.5%float) (Demo.red_serialized 0.5%float)
              Demo.red_trace (Demo.red 0.5%float) Demo.red_args)
    as (_ & _ & _ & _ & Hhidden & _); [demo_run ..|].
  unfold Demo.run. rewrite Hhidden; demo_run.
Defined.

Lemma C7_witness :
  Demo.run (Demo.red_store 0.5%float)
           (Demo.with_precision_alpha VNull (VStr "<percentage>"))
  = Ret "color(srgb 1 0 0 / 0.5)"
  /\ Demo.run (Demo.red_store 0.5%float)
             (Demo.with_precision_alpha (VNum 3%float) (VStr "<percentage>"))
     = Ret "color(srgb 1 0 0 / 50%)"
  /\ exists mk,
       rounded 2 (Util.exact_decimal 4503599627370496 (-55)) mk
       /\ Demo.run (Demo.red_store 0.125%float)
                   (Demo.with_precision_alpha (VNum 2%float) VUndefined)
          = Ret (functional_text Demo.env Demo.color_format Demo.srgb Demo.red_args
                                 (" / " ++ Util.show_decimal false mk ++ "")).
Proof.
  split; [|split].
  - destruct (C7_alpha_unit_and_precision Demo.env (CObject 1)
                (Demo.with_precision_alpha VNull (VStr "<percentage>"))
                (Demo.red_store 0.5%float, [])
                (Demo.red_store 0.5%float, [EGetColor (CObject 1) (Ret 1)])
                Demo.color_format 1 2 3
                (Demo.red_copied 0.5%float) (Demo.red_serialized 0.5%float)
                Demo.red_trace (Demo.red 0.5%float) Demo.red_args)
      as (_ & _ & _ & _ & Hraw & _); [demo_run ..|].
    unfold Demo.run. rewrite Hraw; demo_run.
  - destruct (C7_alpha_unit_and_precision Demo.env (CObject 1)
                (Demo.with_precision_alpha (VNum 3%float) (VStr "<percentage>"))
                (Demo.red_store 0.5%float, [])
                (Demo.red_store 0.5%float, [EGetColor (CObject 1) (Ret 1)])
                Demo.color_format 1 2 3
                (Demo.red_copied 0.5%float) (Demo.red_serialized 0.5%float)
                Demo.red_trace (Demo.red 0.5%float) Demo.red_args)
      as (_ & _ & Hpct & _ & _); [demo_run ..|].
    unfold Demo.run. rewrite Hpct; demo_run.
  - destruct (C7_alpha_unit_and_precision Demo.env (CObject 1)
                (Demo.with_precision_alpha (VNum 2%float) VUndefined)
                (Demo.red_store 0.125%float, [])
                (Demo.red_store 0.125%float, [EGetColor (CObject 1) (Ret 1)])
                Demo.color_format 1 2 3
                (Demo.red_copied 0.125%float) (Demo.red_serialized 0.125%float)
                Demo.red_trace (Demo.red 0.125%float) Demo.red_args)
      as (_ & _ & _ & _ & _ & Hround); [demo_run ..|].
    destruct (Hround demo_rounds 2%float false 4503599627370496%positive (-55)%Z
                eq_refl eq_refl eq_refl) as (mk & Hmk & Hout).
    exists mk. split; [exact Hmk | exact Hout].
Defined.

(** ** Custom formats (lines 56-63) *)

Section CustomFormat.

Variable E : Env.
Variables (input : ColorTypes) (options : Options) (st st1 : state).
Variables (fmt : Format) (color w : loc) (h : heap) (tr : list Event).

Hypothesis Hconvert :
  convertStage E input (format_option options) st = (Ret (fmt, color), st1).
Hypothesis Hgamut : gamutStage E options fmt color st1 = (Ret w, (h, tr)).
Hypothesis Hcustom : f_type fmt = "custom".

Lemma serialize_custom :
  serialize E input options st
  = customStage options (format_option options) fmt color w (h, tr).
Proof.
  rewrite (serialize_stages _ _ _ _ _ _ _ _ _ Hconvert Hgamut).
  unfold renderStage. rewrite Hcustom. reflexivity.
Qed.

(** C8, as amended: for a custom format, [serialize] calls the format's
    [serialize] hook with the working coordinates, the color's alpha and the
    options, and returns what the hook returns; without a hook it throws a
    [TypeError] saying that the format can only be used to parse colors: it
    returns no string, and calls nothing more. *)
Theorem C8_custom_format :
  (forall hook col r h',
     f_serialize fmt = Some hook ->
     h !! color = Some (HColor col) ->
     hook w (alpha col) options h = (r, h') ->
     serialize E input options st
     = (r, (h', (tr ++ [ESerializeHook w (alpha col) options r])%list)))
  /\ (f_serialize fmt = None ->
      serialize E input options st
      = (Throw {| err_name := "TypeError";
                  err_message :=
                    "format " ++ match o_format options with
                                 | Some f => f
                                 | None => "default"
                                 end
                    ++ " can only be used to parse colors, not for serialization" |},
         (h, tr))).
Proof.
  split.
  - intros hook col r h' Hhook Hcol Hrun.
    rewrite serialize_custom. unfold customStage. rewrite Hhook.
    erewrite bind_ret_run by (apply readColor_run; exact Hcol).
    apply call_run. exact Hrun.
  - intros Hnone. rewrite serialize_custom. unfold customStage. rewrite Hnone.
    reflexivity.
Qed.

End CustomFormat.

(** The error of a parse-only format is a [TypeError]. *)
Lemma C8_counterexample :
  f_type Demo.keyword_format = "custom"
  /\ f_serialize Demo.keyword_format = None
  /\ exists e,
       Demo.run (Demo.red_store 1%float) (Demo.with_format "keyword") = Throw e
       /\ err_name e = "TypeError"
       /\ err_name e <> "UnsupportedOperationError".
Proof.
  split; [reflexivity|]. split; [reflexivity|].
  eexists. split; [reflexivity|]. split; [reflexivity|discriminate].
Qed.

Lemma C8_witness :
  Demo.run (Demo.red_store 1%float) (Demo.with_format "count") = Ret "#3"
  /\ Demo.run (Demo.red_store 1%float) (Demo.with_format "keyword")
     = Throw (TypeError
                "format keyword can only be used to parse colors, not for serialization").
Proof.
  split.
  - destruct (C8_custom_format Demo.env (CObject 1) (Demo.with_format "count")
                (Demo.red_store 1%float, [])
                (Demo.red_store 1%float, [EGetColor (CObject 1) (Ret 1)])
                Demo.count_format 1 2 (Demo.red_copied 1%float) Demo.red_trace)
      as [Hhook _]; [demo_run ..|].
    unfold Demo.run.
    rewrite (Hhook Demo.count_hook (Demo.red 1%float) (Ret "#3") (Demo.red_copied 1%float));
      demo_run.
  - destruct (C8_custom_format Demo.env (CObject 1) (Demo.with_format "keyword")
                (Demo.red_store 1%float, [])
                (Demo.red_store 1%float, [EGetColor (CObject 1) (Ret 1)])
                Demo.keyword_format 1 2 (Demo.red_copied 1%float) Demo.red_trace)
      as [_ Hnone]; [demo_run ..|].
    unfold Demo.run. rewrite Hnone; demo_run.
Defined.

(** ** Gamut correction (lines 47-54) *)

Lemma readColor_cases l st :
  (exists c, fst st !! l = Some (HColor c) /\ readColor l st = (Ret c, st))
  \/ ((forall c, fst st !! l <> Some (HColor c))
      /\ exists e, readColor l st = (Throw e, st)).
Proof.
  unfold readColor. destruct (fst st !! l) as [[c|xs|o]|] eqn:Hl.
  - left. eauto.
  - right. split; [congruence|eauto].
  - right. split; [congruence|eauto].
  - right. split; [congruence|eauto].
Qed.

Lemma readArray_cases l st :
  (exists xs, fst st !! l = Some (HArray xs) /\ readArray l st = (Ret xs, st))
  \/ ((forall xs, fst st !! l <> Some (HArray xs))
      /\ exists e, readArray l st = (Throw e, st)).
Proof.
  unfold readArray. destruct (fst st !! l) as [[c|xs|o]|] eqn:Hl.
  - right. split; [congruence|eauto].
  - left. eauto.
  - right. split; [congruence|eauto].
  - right. split; [congruence|eauto].
Qed.

Lemma gamutStage_GamutRun E options fmt color h tr r h' tr' :
  gamutStage E options fmt color (h, tr) = (r, (h', tr')) ->
  exists new,
    tr' = (tr ++ new)%list
    /\ GamutRun E (effective_inGamut options fmt) color h r h' new.
Proof.
  unfold gamutStage. set (flag := effective_inGamut options fmt).
  destruct (readColor_cases color (h, tr)) as [(c & Hc & Rc) | (Hc & e & Rc)];
    simpl in Hc.
  2:{ rewrite (bind_throw_run _ _ _ _ _ Rc). intros [= <- <- <-].
      exists []. rewrite app_nil_r. split; [reflexivity|]. apply GR_no_color, Hc. }
  rewrite (bind_ret_run _ _ _ _ _ Rc).
  destruct (readArray_cases (coords c) (h, tr)) as [(xs & Hxs & Rxs) | (Hxs & e & Rxs)];
    simpl in Hxs.
  2:{ rewrite (bind_throw_run _ _ _ _ _ Rxs). intros [= <- <- <-].
      exists []. rewrite app_nil_r. split; [reflexivity|].
      eapply GR_no_coords; eassumption. }
  rewrite (bind_ret_run _ _ _ _ _ Rxs).
  rewrite bind_run. unfold allocArray at 1. simpl fst. simpl snd.
  destruct (truthy flag) eqn:Hflag.
  2:{ intros [= <- <- <-]. exists []. rewrite app_nil_r. split; [reflexivity|].
      eapply GR_off; eassumption. }
  destruct (checkInGamut E color (h ++ [HArray xs])%list) as [[ok|e] h2] eqn:Hcheck.
  2:{ rewrite (bind_throw_run _ _ _ _ _ (call_run _ _ _ _ _ _ Hcheck)).
      intros [= <- <- <-]. eexists. split; [reflexivity|].
      eapply GR_check_throws; eassumption. }
  rewrite (bind_ret_run _ _ _ _ _ (call_run _ _ _ _ _ _ Hcheck)).
  destruct ok; cbn [negb fst].
  { intros [= <- <- <-]. eexists. split; [reflexivity|].
    eapply GR_in_gamut; eassumption. }
  destruct (clone E color h2) as [[cl|e] h3] eqn:Hclone.
  2:{ rewrite (bind_throw_run _ _ _ _ _ (call_run _ _ _ _ _ _ Hclone)).
      intros [= <- <- <-]. eexists. split; [rewrite <- app_assoc; reflexivity|].
      eapply GR_clone_throws; eassumption. }
  rewrite (bind_ret_run _ _ _ _ _ (call_run _ _ _ _ _ _ Hclone)).
  destruct (toGamut E cl (toGamut_arg flag) h3) as [[g|e] h4] eqn:HtoGamut.
  2:{ rewrite (bind_throw_run _ _ _ _ _ (call_run _ _ _ _ _ _ HtoGamut)).
      intros [= <- <- <-]. eexists.
      split; [rewrite <- !app_assoc; reflexivity|].
      eapply GR_toGamut_throws; eassumption. }
  rewrite (bind_ret_run _ _ _ _ _ (call_run _ _ _ _ _ _ HtoGamut)).
  match goal with |- bind (readColor g) _ ?s = _ -> _ =>
    destruct (readColor_cases g s) as [(gc & Hgc & Rgc) | (Hgc & e & Rgc)] end;
    simpl in Hgc.
  - rewrite (bind_ret_run _ _ _ _ _ Rgc). intros [= <- <- <-]. eexists.
    split; [rewrite <- !app_assoc; reflexivity|].
    eapply GR_mapped; eassumption.
  - rewrite (bind_throw_run _ _ _ _ _ Rgc). intros [= <- <- <-]. eexists.
    split; [rewrite <- !app_assoc; reflexivity|].
    eapply GR_mapped_no_color; eassumption.
Qed.

Lemma toGamut_arg_spec v :
  toGamut_arg v = match v with VBool true => VUndefined | _ => v end.
Proof. destruct v as [| |[]| | |]; reflexivity. Qed.

(** Lines 47-54 on a color that can be read, step by step: nothing is
    called when the flag is falsy; otherwise [checkInGamut] is called on the
    color, then, when it has answered no, [clone] on the color and [toGamut]
    on the clone. *)
Lemma GamutRun_steps E flag color h r h' new col xs :
  GamutRun E flag color h r h' new ->
  h !! color = Some (HColor col) ->
  h !! coords col = Some (HArray xs) ->
  (truthy flag = false ->
   r = Ret (length h) /\ h' = (h ++ [HArray xs])%list /\ new = [])
  /\ (truthy flag = true ->
      exists r0 h2,
        checkInGamut E color (h ++ [HArray xs])%list = (r0, h2)
        /\ match r0 with
           | Throw e =>
             r = Throw e /\ h' = h2 /\ new = [ECheckInGamut color (Throw e)]
           | Ret true =>
             r = Ret (length h) /\ h' = h2 /\ new = [ECheckInGamut color (Ret true)]
           | Ret false =>
             exists rc h3,
               clone E color h2 = (rc, h3)
               /\ match rc with
                  | Throw e =>
                    r = Throw e /\ h' = h3
                    /\ new = [ECheckInGamut color (Ret false); EClone color (Throw e)]
                  | Ret cl =>
                    exists rg,
                      toGamut E cl (toGamut_arg flag) h3 = (rg, h')
                      /\ new = [ECheckInGamut color (Ret false); EClone color (Ret cl);
                                EToGamut cl (toGamut_arg flag) rg]
                      /\ match rg with
                         | Throw e => r = Throw e
                         | Ret g =>
                           forall gc, h' !! g = Some (HColor gc) -> r = Ret (coords gc)
                         end
                  end
           end).
Proof.
  intros HG Hcolor Hcoords.
  inversion HG; subst;
    try (exfalso; match goal with H : forall _, _ <> _ |- _ => eapply H; eassumption end);
    repeat match goal with
           | H : h !! color = Some (HColor ?c) |- _ =>
             rewrite Hcolor in H; injection H as <-
           | H : h !! coords col = Some (HArray ?ys) |- _ =>
             rewrite Hcoords in H; injection H as <-
           end;
    (split; [intros Ht | intros Hf]); try congruence; auto.
  - exists (Throw e), h'. auto.
  - exists (Ret true), h'. auto.
  - exists (Ret false), h2. split; [assumption|]. exists (Throw e), h'. auto.
  - exists (Ret false), h2. split; [assumption|]. exists (Ret cl), h3.
    split; [assumption|]. exists (Throw e). auto.
  - exists (Ret false), h2. split; [assumption|]. exists (Ret cl), h3.
    split; [assumption|]. exists (Ret g). split; [assumption|]. split; [reflexivity|].
    intros gc' Hg. congruence.
  - exists (Ret false), h2. split; [assumption|]. exists (Ret cl), h3.
    split; [assumption|]. exists (Ret g). split; [assumption|]. split; [reflexivity|].
    intros gc' Hg. exfalso.
    match goal with H : forall _, _ <> _ |- _ => exact (H _ Hg) end.
Qed.

(** C1: the flag is [options.inGamut], [true] when absent, [||]-ed with the
    format's [toGamut].  Line 53 runs (its first call, [clone], is in the
    trace) exactly when the flag is truthy and [checkInGamut] has returned
    false on the color; [toGamut] is then called on the clone, its second
    argument being the flag, or [undefined] when the flag is [true]; and the
    working coordinates, with which [serialize] goes on, are those of its
    result.  Otherwise they are the copy of line 47.  When the lines return, [toGamut] has been called, and has
    returned, exactly when the flag is truthy and [checkInGamut] has returned
    false.  On a color that can be read, the lines call nothing when the flag
    is falsy, and when it is truthy they call [checkInGamut] on the color,
    with the coordinates copied, and go by its answer: on yes the working
    coordinates are the copy; on no the color is cloned and [toGamut] called
    on the clone. *)
Theorem C1_gamut_correction E input options st fmt color h tr r h' tr' :
  convertStage E input (format_option options) st = (Ret (fmt, color), (h, tr)) ->
  gamutStage E options fmt color (h, tr) = (r, (h', tr')) ->
  let flag := js_or (match o_inGamut options with
                     | VUndefined => VBool true
                     | v => v
                     end) (f_toGamut fmt) in
  let selector := match flag with VBool true => VUndefined | _ => flag end in
  exists new,
    tr' = (tr ++ new)%list
    /\ serialize E input options st
       = match r with
         | Ret w => renderStage E options (format_option options) fmt color w (h', tr')
         | Throw e => (Throw e, (h', tr'))
         end
    /\ ((exists r0, In (EClone color r0) new)
        <-> truthy flag = true /\ In (ECheckInGamut color (Ret false)) new)
    /\ (forall cl, In (EClone color (Ret cl)) new ->
                   exists r1, In (EToGamut cl selector r1) new)
    /\ (forall cl s r1, In (EToGamut cl s r1) new ->
                        s = selector /\ In (EClone color (Ret cl)) new)
    /\ (forall w, r = Ret w ->
          ((exists cl g, In (EToGamut cl selector (Ret g)) new)
           <-> truthy flag = true /\ In (ECheckInGamut color (Ret false)) new)
          /\ (forall cl s g, In (EToGamut cl s (Ret g)) new ->
                             exists gc, h' !! g = Some (HColor gc) /\ w = coords gc)
          /\ ((forall r0, ~ In (EClone color r0) new) -> w = length h))
    /\ (forall col xs,
          h !! color = Some (HColor col) ->
          h !! coords col = Some (HArray xs) ->
          (truthy flag = false ->
           r = Ret (length h) /\ h' = (h ++ [HArray xs])%list /\ new = [])
          /\ (truthy flag = true ->
              exists r0 h2,
                checkInGamut E color (h ++ [HArray xs])%list = (r0, h2)
                /\ match r0 with
                   | Throw e =>
                     r = Throw e /\ h' = h2 /\ new = [ECheckInGamut color (Throw e)]
                   | Ret true =>
                     r = Ret (length h) /\ h' = h2
                     /\ new = [ECheckInGamut color (Ret true)]
                   | Ret false =>
                     exists rc h3,
                       clone E color h2 = (rc, h3)
                       /\ match rc with
                          | Throw e =>
                            r = Throw e /\ h' = h3
                            /\ new = [ECheckInGamut color (Ret false);
                                      EClone color (Throw e)]
                          | Ret cl =>
                            exists rg,
                              toGamut E cl selector h3 = (rg, h')
                              /\ new = [ECheckInGamut color (Ret false);
                                        EClone color (Ret cl);
                                        EToGamut cl selector rg]
                              /\ match rg with
                                 | Throw e => r = Throw e
                                 | Ret g =>
                                   forall gc, h' !! g = Some (HColor gc) ->
                                              r = Ret (coords gc)
                                 end
                          end
                   end)).
Proof.
  intros Hconvert Hrun flag selector.
  destruct (gamutStage_GamutRun _ _ _ _ _ _ _ _ _ Hrun) as (new & -> & HG).
  change (effective_inGamut options fmt) with flag in HG.
  exists new. split; [reflexivity|]. split.
  { unfold serialize. rewrite (bind_ret_run _ _ _ _ _ Hconvert).
    simpl fst. simpl snd. rewrite bind_run, Hrun. destruct r; reflexivity. }
  assert (Hsel : toGamut_arg flag = selector) by apply toGamut_arg_spec.
  clearbody selector flag. clear Hrun Hconvert.
  split; [|split; [|split; [|split]]].
  5:{ intros col xs Hcolor Hcoords. rewrite <- Hsel.
      exact (GamutRun_steps _ _ _ _ _ _ _ _ _ HG Hcolor Hcoords). }
  all: inversion HG; subst; simpl In.
  all: repeat (split || intro).
  all: event_cases; try discriminate; eauto 8.
  all: try (exfalso;
            match goal with H : forall r0, ~ _ |- _ => eapply H; eauto 6 end; fail).
Qed.

Lemma C1_witness :
  In (EToGamut 4 VUndefined (Ret 4))
     (snd (snd (gamutStage Demo.env (Demo.with_format_inGamut "rgba" (VBool false))
                           Demo.rgba_format 1
                           (Demo.wide_store 1%float, [EGetColor (CObject 1) (Ret 1)])))).
Proof.
  destruct (C1_gamut_correction Demo.env (CObject 1)
              (Demo.with_format_inGamut "rgba" (VBool false))
              (Demo.wide_store 1%float, []) Demo.rgba_format 1
              (Demo.wide_store 1%float) [EGetColor (CObject 1) (Ret 1)]
              (fst (gamutStage Demo.env (Demo.with_format_inGamut "rgba" (VBool false))
                               Demo.rgba_format 1
                               (Demo.wide_store 1%float,
                                [EGetColor (CObject 1) (Ret 1)])))
              (fst (snd (gamutStage Demo.env
                           (Demo.with_format_inGamut "rgba" (VBool false))
                           Demo.rgba_format 1
                           (Demo.wide_store 1%float,
                            [EGetColor (CObject 1) (Ret 1)]))))
              (snd (snd (gamutStage Demo.env
                           (Demo.with_format_inGamut "rgba" (VBool false))
                           Demo.rgba_format 1
                           (Demo.wide_store 1%float,
                            [EGetColor (CObject 1) (Ret 1)])))))
    as (new & Hnew & _ & _ & _ & _ & _ & Hsteps); [reflexivity..|].
  destruct (Hsteps (Demo.wide 1%float) Demo.wide_coords eq_refl eq_refl) as [_ Hon].
  destruct (Hon eq_refl) as (r0 & h2 & Hcheck & Hr0).
  assert (H0 : r0 = Ret false
               /\ h2 = (Demo.wide_store 1%float ++ [HArray Demo.wide_coords])%list).
  { pose proof (f_equal fst Hcheck) as H1. pose proof (f_equal snd Hcheck) as H2.
    split; symmetry; [exact H1 | exact H2]. }
  destruct H0 as [-> ->].
  destruct Hr0 as (rc & h3 & Hclone & Hrc).
  assert (H0 : rc = Ret 4
               /\ h3 = (Demo.wide_store 1%float
                        ++ [HArray Demo.wide_coords; HArray Demo.wide_coords;
                            HColor {| space := Demo.srgb; coords := 3;
                                      alpha := 1%float |}])%list).
  { pose proof (f_equal fst Hclone) as H1. pose proof (f_equal snd Hclone) as H2.
    split; symmetry; [exact H1 | exact H2]. }
  destruct H0 as [-> ->].
  destruct Hrc as (rg & Htg & Hnew' & _).
  rewrite Hnew, Hnew'. apply in_or_app. right. simpl.
  pose proof (f_equal fst Htg) as H1. simpl fst in H1. rewrite <- H1. auto.
Defined.

(** ** One run, case by case *)

(** One run of [serialize], stage by stage. *)
Lemma serialize_cases E input options st r st' :
  serialize E input options st = (r, st') ->
  (exists e, convertStage E input (format_option options) st = (Throw e, st')
             /\ r = Throw e)
  \/ exists fmt color st1,
       convertStage E input (format_option options) st = (Ret (fmt, color), st1)
       /\ ((exists e, gamutStage E options fmt color st1 = (Throw e, st')
                      /\ r = Throw e)
           \/ exists w st2,
                gamutStage E options fmt color st1 = (Ret w, st2)
                /\ renderStage E options (format_option options) fmt color w st2
                   = (r, st')).
Proof.
  unfold serialize. rewrite bind_run.
  destruct (convertStage E input (format_option options) st)
    as [[[fmt color]|e] st1] eqn:Hc.
  2:{ intros [= <- <-]. left. exists e. split; reflexivity. }
  simpl fst. simpl snd. rewrite bind_run.
  destruct (gamutStage E options fmt color st1) as [[w|e] st2] eqn:Hg.
  2:{ intros [= <- <-]. right. exists fmt, color, st1. split; [reflexivity|].
      left. exists e. split; [exact Hg | reflexivity]. }
  intros Hrun. right. exists fmt, color, st1. split; [reflexivity|].
  right. exists w, st2. split; [exact Hg | exact Hrun].
Qed.

(** Lines 29-41, case by case. *)
Lemma convertStage_cases E input format h tr r h' tr' :
  convertStage E input format (h, tr) = (r, (h', tr')) ->
  (exists e, getColor E input h = (Throw e, h') /\ r = Throw e
             /\ tr' = (tr ++ [EGetColor input (Throw e)])%list)
  \/ exists c h1,
       getColor E input h = (Ret c, h1)
       /\ (((forall col, h1 !! c <> Some (HColor col))
            /\ h' = h1 /\ tr' = (tr ++ [EGetColor input (Ret c)])%list
            /\ exists e, r = Throw e)
           \/ exists col,
                h1 !! c = Some (HColor col)
                /\ let fmt := resolveFormat E (space col) format in
                   let other := match f_space fmt with
                                | Some s => negb (space_same s (space col))
                                | None => false
                                end in
                   (other = false /\ r = Ret (fmt, c) /\ h' = h1
                    /\ tr' = (tr ++ [EGetColor input (Ret c)])%list)
                   \/ (other = true
                       /\ exists s rt,
                            f_space fmt = Some s
                            /\ to E c s h1 = (rt, h')
                            /\ tr' = (tr ++ [EGetColor input (Ret c); ETo c s rt])%list
                            /\ r = match rt with
                                   | Ret c' => Ret (fmt, c')
                                   | Throw e => Throw e
                                   end)).
Proof.
  unfold convertStage.
  destruct (getColor E input h) as [[c|e] h1] eqn:Hget.
  2:{ rewrite (bind_throw_run _ _ _ _ _ (call_run _ _ _ _ _ _ Hget)).
      intros [= <- <- <-]. left. exists e. auto. }
  rewrite (bind_ret_run _ _ _ _ _ (call_run _ _ _ _ _ _ Hget)).
  intros Hrun. right. exists c, h1. split; [reflexivity|].
  match type of Hrun with bind (readColor c) _ ?s = _ =>
    destruct (readColor_cases c s) as [(col & Hcol & Rc) | (Hcol & e & Rc)] end;
    simpl in Hcol.
  2:{ rewrite (bind_throw_run _ _ _ _ _ Rc) in Hrun. injection Hrun as <- <- <-.
      left. eauto 6. }
  rewrite (bind_ret_run _ _ _ _ _ Rc) in Hrun. right. exists col.
  split; [exact Hcol|]. cbv zeta in Hrun |- *.
  destruct (f_space (resolveFormat E (space col) format)) as [s|].
  2:{ injection Hrun as <- <- <-. left. auto. }
  destruct (negb (space_same s (space col))).
  2:{ injection Hrun as <- <- <-. left. auto. }
  right. split; [reflexivity|].
  destruct (to E c s h1) as [rt h2] eqn:Hto. exists s, rt.
  rewrite bind_run, (call_run _ _ _ _ _ _ Hto) in Hrun.
  destruct rt as [c'|e]; injection Hrun as <- <- <-;
    rewrite <- app_assoc; auto.
Qed.

(** ** Who may write where: the contracts of the imported functions *)

Lemma frame_refl n h : frame n h h.
Proof. intros l _. reflexivity. Qed.

Lemma frame_trans n h1 h2 h3 : frame n h1 h2 -> frame n h2 h3 -> frame n h1 h3.
Proof. intros H12 H23 l Hl. rewrite (H23 l Hl). apply H12, Hl. Qed.

Lemma frame_weaken n m h h' : n <= m -> frame m h h' -> frame n h h'.
Proof. intros Hnm H l Hl. apply H. lia. Qed.

Lemma frame_length n (h h' : heap) : n <= length h -> frame n h h' -> n <= length h'.
Proof.
  intros Hn H. destruct n as [|n]; [lia|].
  assert (Hl : n < S n) by lia. specialize (H n Hl).
  destruct (lookup_lt_is_Some_2 h n) as [c Hc]; [lia|].
  rewrite Hc in H. apply lookup_lt_Some in H. lia.
Qed.

Lemma frame_alloc (h : heap) c : frame (length h) h (h ++ [c])%list.
Proof. intros l Hl. apply lookup_app_l. exact Hl. Qed.


(** ** A program logic for [M] with the frame built in *)

Lemma hoare_ret {A} n (P : heap -> Prop) (a : A) (Q : A -> heap -> Prop) :
  (forall h, n <= length h -> P h -> Q a h) -> hoare n P (ret a) Q.
Proof.
  intros HQ h tr r h' tr' Hn HP [= <- <- <-]. split; [apply frame_refl|].
  intros a' [= <-]. apply HQ; assumption.
Qed.


Lemma hoare_bind {A B} n P (m : M A) Q (k : A -> M B) R :
  hoare n P m Q -> (forall a, hoare n (Q a) (k a) R) -> hoare n P (bind m k) R.
Proof.
  intros Hm Hk h tr r h' tr' Hn HP. rewrite bind_run.
  destruct (m (h, tr)) as [[a|e] [h1 tr1]] eqn:Hrun.
  - destruct (Hm _ _ _ _ _ Hn HP Hrun) as [Hf HQ]. intros Hk'.
    destruct (Hk a _ _ _ _ _ (frame_length _ _ _ Hn Hf) (HQ a eq_refl) Hk') as [Hf' HR].
    split; [exact (frame_trans _ _ _ _ Hf Hf')|exact HR].
  - destruct (Hm _ _ _ _ _ Hn HP Hrun) as [Hf _]. intros [= <- <- <-].
    split; [exact Hf|]. intros a [=].
Qed.

Lemma hoare_consequence {A} n (P P' : heap -> Prop) (m : M A) (Q Q' : A -> heap -> Prop) :
  hoare n P' m Q' ->
  (forall h, n <= length h -> P h -> P' h) ->
  (forall a h, n <= length h -> Q' a h -> Q a h) ->
  hoare n P m Q.
Proof.
  intros Hm HP HQ h tr r h' tr' Hn HPh Hrun.
  destruct (Hm _ _ _ _ _ Hn (HP _ Hn HPh) Hrun) as [Hf HQ'].
  split; [exact Hf|]. intros a Ha. apply HQ; [|apply HQ', Ha].
  exact (frame_length _ _ _ Hn Hf).
Qed.

(** A call that writes to nothing below [n], with a postcondition read off
    the call itself. *)
Lemma hoare_call {A} n (P : heap -> Prop) ev (f : ext A) (Q : A -> heap -> Prop) :
  (forall h r h', n <= length h -> P h -> f h = (r, h') ->
                  frame n h h' /\ forall a, r = Ret a -> Q a h') ->
  hoare n P (call ev f) Q.
Proof.
  intros Hf h tr r h' tr' Hn HP. unfold call. simpl.
  destruct (f h) as [r0 h0] eqn:Hrun. intros [= <- <- <-].
  exact (Hf _ _ _ Hn HP Hrun).
Qed.

Lemma hoare_readColor n (P : heap -> Prop) l :
  hoare n P (readColor l) (fun c h => P h /\ h !! l = Some (HColor c)).
Proof.
  intros h tr r h' tr' Hn HP. unfold readColor. simpl.
  destruct (h !! l) as [[c|xs|o]|] eqn:Hl; intros [= <- <- <-];
    (split; [apply frame_refl|]); intros a [=]. subst. auto.
Qed.

Lemma hoare_readArray n (P : heap -> Prop) l :
  hoare n P (readArray l) (fun xs h => P h /\ h !! l = Some (HArray xs)).
Proof.
  intros h tr r h' tr' Hn HP. unfold readArray. simpl.
  destruct (h !! l) as [[c|xs|o]|] eqn:Hl; intros [= <- <- <-];
    (split; [apply frame_refl|]); intros a [=]. subst. auto.
Qed.

(** A fact that the precondition entails, whatever the store. *)
Lemma hoare_assume {A} n (phi : Prop) (P : heap -> Prop) (m : M A) Q :
  (forall h, P h -> phi) -> (phi -> hoare n P m Q) -> hoare n P m Q.
Proof. intros Hphi H h tr r h' tr' Hn HP. exact (H (Hphi h HP) _ _ _ _ _ Hn HP). Qed.

Lemma hoare_allocArray n (P : heap -> Prop) xs :
  hoare n P (allocArray xs) (fun l _ => n <= l).
Proof.
  intros h tr r h' tr' Hn HP [= <- <- <-]. split.
  - exact (frame_weaken _ _ _ _ Hn (frame_alloc h (HArray xs))).
  - intros a [= <-]. exact Hn.
Qed.


Lemma GamutRun_no_hook E flag color h r h' new :
  GamutRun E flag color h r h' new ->
  forall w a o res, ~ In (ESerializeHook w a o res) new.
Proof.
  intros HG w a o res Hin. inversion HG; subst; simpl in Hin; event_cases.
Qed.

(** Lines 64-103, seen from their outcome: [serializeCoords] is the only
    call, and a string is returned only when the color object and the array
    of arguments can be read. *)
Lemma functionalStage_cases E options fmt color w h tr r h' tr' :
  functionalStage E options fmt color w (h, tr) = (r, (h', tr')) ->
  exists ra h1,
    f_serializeCoords fmt w (precision_option E options) (o_coords options) h = (ra, h1)
    /\ tr' = (tr ++ [ESerializeCoords w (precision_option E options)
                                      (o_coords options) ra])%list
    /\ forall s, r = Ret s ->
         exists args col xs,
           ra = Ret args /\ h1 !! color = Some (HColor col)
           /\ h1 !! args = Some (HArray xs).
Proof.
  destruct (f_serializeCoords fmt w (precision_option E options) (o_coords options) h)
    as [ra h1] eqn:Hsc.
  intros Hrun. exists ra, h1. split; [reflexivity|].
  destruct ra as [args|e].
  2:{ unfold functionalStage in Hrun.
      rewrite (bind_throw_run _ _ _ _ _ (call_run _ _ _ _ _ _ Hsc)) in Hrun.
      injection Hrun as <- <- <-. split; [reflexivity|]. intros s [=]. }
  assert (Hgood : forall col xs,
            h1 !! color = Some (HColor col) -> h1 !! args = Some (HArray xs) ->
            tr' = (tr ++ [ESerializeCoords w (precision_option E options)
                                           (o_coords options) (Ret args)])%list
            /\ forall s, r = Ret s ->
                 exists args0 col0 xs0,
                   Ret args = Ret args0 /\ h1 !! color = Some (HColor col0)
                   /\ h1 !! args0 = Some (HArray xs0)).
  { intros col xs Hcol Hargs.
    rewrite (functionalStage_run _ _ _ _ _ _ _ _ _ _ _ Hsc Hcol Hargs) in Hrun.
    injection Hrun as <- <- <-. split; [reflexivity|].
    intros s _. exists args, col, xs. auto. }
  assert (Hbad : forall e st,
            (Throw e, st) = (r, (h', tr')) ->
            snd st = (tr ++ [ESerializeCoords w (precision_option E options)
                                              (o_coords options) (Ret args)])%list ->
            tr' = (tr ++ [ESerializeCoords w (precision_option E options)
                                           (o_coords options) (Ret args)])%list
            /\ forall s, r = Ret s ->
                 exists args0 col0 xs0,
                   Ret args = Ret args0 /\ h1 !! color = Some (HColor col0)
                   /\ h1 !! args0 = Some (HArray xs0)).
  { intros e [h'' tr''] [= <- <- <-] Htr. split; [exact Htr|]. intros s [=]. }
  unfold functionalStage in Hrun.
  rewrite (bind_ret_run _ _ _ _ _ (call_run _ _ _ _ _ _ Hsc)) in Hrun.
  set (st1 := (h1, (tr ++ [ESerializeCoords w (precision_option E options)
                                            (o_coords options) (Ret args)])%list)) in *.
  destruct (functional_name fmt =? "color").
  - (* the id of the space goes first *)
    rewrite !bind_assoc_run in Hrun. unfold read_cssId in Hrun.
    destruct (truthy_str (str_or (f_id fmt) (first_id fmt))) as [i|].
    + rewrite bind_ret_l in Hrun. rewrite bind_assoc_run in Hrun.
      destruct (readArray_cases args st1) as [(xs & Hargs & Rargs) | (Hargs & e' & Rargs)];
        simpl in Hargs.
      2:{ rewrite (bind_throw_run _ _ _ _ _ Rargs) in Hrun. exact (Hbad _ _ Hrun eq_refl). }
      rewrite (bind_ret_run _ _ _ _ _ Rargs) in Hrun.
      rewrite bind_run in Hrun. unfold writeArray at 1 in Hrun.
      simpl fst in Hrun. simpl snd in Hrun.
      match type of Hrun with bind (readColor color) _ ?s = _ =>
        destruct (readColor_cases color s) as [(col & Hcol & Rcol) | (Hcol & e & Rcol)]
      end; simpl in Hcol.
      2:{ rewrite (bind_throw_run _ _ _ _ _ Rcol) in Hrun. exact (Hbad _ _ Hrun eq_refl). }
      apply (Hgood col xs); [|exact Hargs].
      rewrite list_lookup_insert_ne in Hcol; [exact Hcol|].
      intros <-. rewrite (lookup_insert_array _ _ _ _ Hargs) in Hcol. discriminate.
    + rewrite !bind_assoc_run in Hrun.
      destruct (readColor_cases color st1) as [(col & Hcol & Rcol) | (Hcol & e & Rcol)];
        simpl in Hcol.
      2:{ rewrite (bind_throw_run _ _ _ _ _ Rcol) in Hrun. exact (Hbad _ _ Hrun eq_refl). }
      rewrite (bind_ret_run _ _ _ _ _ Rcol) in Hrun.
      rewrite bind_ret_l, bind_assoc_run in Hrun.
      destruct (readArray_cases args st1) as [(xs & Hargs & Rargs) | (Hargs & e' & Rargs)];
        simpl in Hargs.
      2:{ rewrite (bind_throw_run _ _ _ _ _ Rargs) in Hrun. exact (Hbad _ _ Hrun eq_refl). }
      exact (Hgood col xs Hcol Hargs).
  - rewrite bind_ret_l in Hrun.
    destruct (readColor_cases color st1) as [(col & Hcol & Rcol) | (Hcol & e & Rcol)];
      simpl in Hcol.
    2:{ rewrite (bind_throw_run _ _ _ _ _ Rcol) in Hrun. exact (Hbad _ _ Hrun eq_refl). }
    rewrite (bind_ret_run _ _ _ _ _ Rcol) in Hrun.
    destruct (readArray_cases args st1) as [(xs & Hargs & Rargs) | (Hargs & e' & Rargs)];
      simpl in Hargs.
    2:{ rewrite (bind_throw_run _ _ _ _ _ Rargs) in Hrun. exact (Hbad _ _ Hrun eq_refl). }
    exact (Hgood col xs Hcol Hargs).
Qed.

Section Frame.

Variable E : Env.
Hypothesis HC : Contracts E.
Hypothesis HF : forall sp name, format_contract (resolveFormat E sp name).

(** Lines 29-41: once [getColor] has returned, they write to no object that
    exists, and the format they deliver keeps to its contract. *)
Lemma convertStage_frame input format h tr r h' tr' :
  convertStage E input format (h, tr) = (r, (h', tr')) ->
  exists r0 h1,
    getColor E input h = (r0, h1)
    /\ frame (length h1) h1 h'
    /\ forall fmt color, r = Ret (fmt, color) -> format_contract fmt.
Proof.
  intros Hrun.
  destruct (convertStage_cases _ _ _ _ _ _ _ _ Hrun)
    as [(e & Hg & -> & _) | (c & h1 & Hg & Hcases)].
  - exists (Throw e), h'. split; [exact Hg|]. split; [apply frame_refl|].
    intros fmt color [=].
  - exists (Ret c), h1. split; [exact Hg|].
    destruct Hcases as [(_ & -> & _ & e & ->) | (col & _ & Hcases)].
    + split; [apply frame_refl | intros fmt color [=]].
    + cbv zeta in Hcases.
      destruct Hcases as [(_ & -> & -> & _) | (_ & s & rt & _ & Hto & _ & ->)].
      * split; [apply frame_refl|]. intros fmt color [= <- _]. apply HF.
      * split; [exact (to_no_write E HC _ _ _ _ _ Hto)|].
        intros fmt color Hr. destruct rt; [|discriminate].
        injection Hr as <- _. apply HF.
Qed.

(** Lines 47-54 write to no object that exists, and the working coordinates
    they deliver are a new array. *)
Lemma gamutStage_hoare n P options fmt color :
  hoare n P (gamutStage E options fmt color) (fun w _ => n <= w).
Proof.
  unfold gamutStage.
  eapply hoare_bind; [apply hoare_readColor|]. intros c.
  eapply hoare_bind; [apply hoare_readArray|]. intros xs.
  eapply hoare_bind; [apply hoare_allocArray|]. intros coords0. cbv beta.
  apply (hoare_assume n (n <= coords0)); [auto|]. intros Hcoords0.
  destruct (truthy (effective_inGamut options fmt)); [|apply hoare_ret; auto].
  eapply hoare_bind with (Q := fun _ _ => True).
  { apply hoare_call. intros h r h' Hn _ Hrun. split; [|auto].
    exact (frame_weaken _ _ _ _ Hn (checkInGamut_no_write E HC _ _ _ _ Hrun)). }
  intros ok. destruct (negb ok); [|apply hoare_ret; auto].
  (* the clone and its coordinate array are new *)
  eapply hoare_bind
    with (Q := fun cl h => n <= cl
                           /\ forall ccl, h !! cl = Some (HColor ccl) -> n <= coords ccl).
  { apply hoare_call. intros h r h' Hn _ Hrun. split.
    - exact (frame_weaken _ _ _ _ Hn (clone_no_write E HC _ _ _ _ Hrun)).
    - intros cl ->. destruct (clone_fresh E HC _ _ _ _ Hrun) as [Hcl Hccl].
      split; [lia|]. intros ccl Hl. specialize (Hccl ccl Hl). lia. }
  intros cl.
  (* the coordinate array of what toGamut returns is new *)
  eapply hoare_bind
    with (Q := fun g h => forall gc, h !! g = Some (HColor gc) -> n <= coords gc).
  { apply hoare_call. intros h r h' Hn [Hcl Hccl] Hrun. split.
    - intros l Hl. apply (toGamut_writes E HC _ _ _ _ _ Hrun); [lia|lia|].
      intros ccl Hc. specialize (Hccl ccl Hc). lia.
    - intros g -> gc Hg.
      destruct (toGamut_result E HC _ _ _ _ _ _ Hrun Hg) as [(ccl & Hc & ->)|Hnew].
      + exact (Hccl ccl Hc).
      + lia. }
  intros g.
  eapply hoare_bind; [apply hoare_readColor|]. intros gc. cbv beta.
  apply hoare_ret. intros h _ [Hg Hgc]. exact (Hg gc Hgc).
Qed.




(** C10: gamut correction leaves alpha alone.  Whatever lines 47-54 do, the
    alpha handed to the hook of a custom format, and the alpha that goes into
    the suffix of a functional format, is the alpha that the color object had
    when lines 29-41 were done with it: the string of a functional format is
    the text made of the array that [serializeCoords] has returned for the
    working coordinates, and of the suffix for that alpha. *)
Theorem C10_alpha_untouched input options h0 tr0 fmt color h tr col r h' tr' :
  convertStage E input (format_option options) (h0, tr0) = (Ret (fmt, color), (h, tr)) ->
  h !! color = Some (HColor col) ->
  serialize E input options (h0, tr0) = (r, (h', tr')) ->
  exists new,
    tr' = (tr ++ new)%list
    /\ (forall w a o res, In (ESerializeHook w a o res) new -> a = alpha col)
    /\ (f_type fmt <> "custom" ->
        forall s, r = Ret s ->
        exists w h2 tr2 args h3 xs,
          gamutStage E options fmt color (h, tr) = (Ret w, (h2, tr2))
          /\ f_serializeCoords fmt w (precision_option E options) (o_coords options) h2
             = (Ret args, h3)
          /\ h3 !! args = Some (HArray xs)
          /\ s = functional_text E fmt (space col) xs
                                 (strAlpha E options fmt (alpha col))).
Proof.
  intros Hconv Hcol Hrun.
  assert (Hfmt : format_contract fmt).
  { destruct (convertStage_frame _ _ _ _ _ _ _ Hconv) as (_ & _ & _ & _ & Hpost).
    exact (Hpost _ _ eq_refl). }
  unfold serialize in Hrun. rewrite (bind_ret_run _ _ _ _ _ Hconv) in Hrun.
  simpl fst in Hrun. simpl snd in Hrun. rewrite bind_run in Hrun.
  destruct (gamutStage E options fmt color (h, tr)) as [rw [h2 tr2]] eqn:Hgamut.
  destruct (gamutStage_GamutRun _ _ _ _ _ _ _ _ _ Hgamut) as (new1 & -> & HG).
  pose proof (GamutRun_no_hook _ _ _ _ _ _ _ HG) as Hnohook.
  destruct (gamutStage_hoare (length h) (fun _ => True) options fmt color
              h tr _ _ _ (le_n _) I Hgamut) as [Hframe Hw].
  assert (Hlt : color < length h) by (eapply lookup_lt_Some, Hcol).
  assert (Hcol2 : h2 !! color = Some (HColor col))
    by (rewrite (Hframe _ Hlt); exact Hcol).
  destruct rw as [w|e].
  2:{ injection Hrun as <- <- <-. exists new1. split; [reflexivity|].
      split; [intros w a o res Hin; destruct (Hnohook _ _ _ _ Hin)|].
      intros _ s [=]. }
  specialize (Hw w eq_refl). unfold renderStage in Hrun.
  destruct (f_type fmt =? "custom") eqn:Htype.
  - (* custom format *)
    apply String.eqb_eq in Htype. unfold customStage in Hrun.
    destruct (f_serialize fmt) as [hook|].
    + rewrite (bind_ret_run _ _ _ _ _ (readColor_run _ _ _ _ Hcol2)) in Hrun.
      unfold call in Hrun. simpl in Hrun.
      destruct (hook w (alpha col) options h2) as [r0 h3].
      injection Hrun as <- <- <-.
      exists (new1 ++ [ESerializeHook w (alpha col) options r0])%list.
      split; [symmetry; apply app_assoc|]. split; [|intros Hne; contradiction].
      intros w' a o res Hin. apply in_app_or in Hin. destruct Hin as [Hin|Hin].
      * destruct (Hnohook _ _ _ _ Hin).
      * simpl in Hin. event_cases. reflexivity.
    + injection Hrun as <- <- <-. exists new1. split; [reflexivity|].
      split; [intros w' a o res Hin; destruct (Hnohook _ _ _ _ Hin)|].
      intros Hne; contradiction.
  - (* functional format *)
    destruct (functionalStage_cases _ _ _ _ _ _ _ _ _ _ Hrun)
      as (ra & h3 & Hsc & -> & Hret).
    eexists. split; [symmetry; apply app_assoc|]. split.
    + intros w' a o res Hin. apply in_app_or in Hin. destruct Hin as [Hin|Hin].
      * destruct (Hnohook _ _ _ _ Hin).
      * simpl in Hin. event_cases.
    + intros _ s ->. destruct (Hret s eq_refl) as (args & col' & xs & -> & Hcol3 & Hargs).
      assert (Hsame : h3 !! color = h2 !! color).
      { destruct Hfmt as [Hcoords _].
        destruct (Hcoords _ _ _ _ _ _ Hsc) as [Hwrites _].
        apply Hwrites; [|lia].
        eapply lookup_lt_Some, Hcol2. }
      rewrite Hcol2, Hcol3 in Hsame. injection Hsame as ->.
      rewrite (functionalStage_run _ _ _ _ _ _ _ _ _ _ _ Hsc Hcol3 Hargs) in Hrun.
      apply (f_equal fst) in Hrun. simpl in Hrun. injection Hrun as Hs.
      exists w, h2, (tr ++ new1)%list, args, h3, xs.
      split; [reflexivity|]. split; [exact Hsc|]. split; [exact Hargs|].
      symmetry. exact Hs.
Qed.

End Frame.

(** ** What [inGamut: true] and [inGamut: false] do (lines 49-54) *)

Section GamutOption.

Variable E : Env.
Variable in_gamut : ColorSpace -> list JsVal -> bool.
Hypothesis HG : GamutContracts E in_gamut.

Variables (input : ColorTypes) (options : Options) (st : state).
Variables (fmt : Format) (color : loc) (h : heap) (tr : list Event).
Variables (col : PlainColorObject) (xs : list JsVal).

(** The run reaches line 47 with the format [fmt] and the color object
    [color], of coordinates [xs]. *)
Hypothesis Hconvert :
  convertStage E input (format_option options) st = (Ret (fmt, color), (h, tr)).
Hypothesis Hcolor : h !! color = Some (HColor col).
Hypothesis Hcoords : h !! coords col = Some (HArray xs).

(** With a truthy flag, a color out of gamut is mapped: the working
    coordinates are those of the result of [toGamut]. *)
Lemma gamutStage_maps :
  truthy (effective_inGamut options fmt) = true ->
  in_gamut (space col) xs = false ->
  exists w h' tr' ys,
    gamutStage E options fmt color (h, tr) = (Ret w, (h', tr'))
    /\ serialize E input options st
       = renderStage E options (format_option options) fmt color w (h', tr')
    /\ h' !! w = Some (HArray ys)
    /\ ys <> xs
    /\ in_gamut (space col) ys = true.
Proof.
  intros Hflag Hout.
  assert (Hlt : color < length h) by (eapply lookup_lt_Some, Hcolor).
  assert (Hlt' : coords col < length h) by (eapply lookup_lt_Some, Hcoords).
  assert (Hcolor1 : (h ++ [HArray xs])%list !! color = Some (HColor col))
    by (rewrite lookup_app_l; assumption).
  assert (Hcoords1 : (h ++ [HArray xs])%list !! coords col = Some (HArray xs))
    by (rewrite lookup_app_l; assumption).
  pose proof (checkInGamut_decides E in_gamut HG _ _ _ _ Hcolor1 Hcoords1) as Hcheck.
  rewrite Hout in Hcheck.
  destruct (clone_copies E in_gamut HG _ _ _ _ Hcolor1 Hcoords1)
    as (cl & h3 & ccl & Hclone & Hcl & Hspace & Hclcoords).
  destruct (toGamut_maps E in_gamut HG cl
              (toGamut_arg (effective_inGamut options fmt)) _ _ _ Hcl Hclcoords)
    as (g & h4 & gc & ys & HtoGamut & Hg & Hys & Hspace' & Hin).
  exists (coords gc), h4,
    (tr ++ [ECheckInGamut color (Ret false); EClone color (Ret cl);
            EToGamut cl (toGamut_arg (effective_inGamut options fmt)) (Ret g)])%list,
    ys.
  rewrite Hspace', Hspace in Hin.
  assert (Hrun : gamutStage E options fmt color (h, tr)
                 = (Ret (coords gc),
                    (h4, (tr ++ [ECheckInGamut color (Ret false); EClone color (Ret cl);
                                 EToGamut cl (toGamut_arg (effective_inGamut options fmt))
                                          (Ret g)])%list))).
  { unfold gamutStage.
    erewrite bind_ret_run by (apply readColor_run; exact Hcolor).
    erewrite bind_ret_run by (apply readArray_run; exact Hcoords).
    rewrite bind_run. unfold allocArray at 1. simpl fst. simpl snd.
    rewrite Hflag.
    erewrite bind_ret_run by (apply call_run; exact Hcheck). cbn [negb].
    erewrite bind_ret_run by (apply call_run; exact Hclone).
    erewrite bind_ret_run by (apply call_run; exact HtoGamut).
    erewrite bind_ret_run by (apply readColor_run; exact Hg).
    unfold ret. rewrite <- !app_assoc. reflexivity. }
  split; [exact Hrun|].
  split; [exact (serialize_stages _ _ _ _ _ _ _ _ _ Hconvert Hrun)|].
  split; [exact Hys|]. split; [|exact Hin].
  intros ->. congruence.
Qed.

(** C6, as amended: with [inGamut: true], a color that [checkInGamut]
    rejects is serialized with the coordinates of the result of [toGamut]:
    they differ from the raw ones and are in gamut.  With [inGamut: false]
    the raw coordinates are copied and handed on to lines 56-103 as they are,
    and nothing is called, when the [toGamut] default of the format is falsy;
    when that default is truthy, the color is mapped all the same. *)
Theorem C6_inGamut_option :
  let mapped :=
    exists w h' tr' ys,
      gamutStage E options fmt color (h, tr) = (Ret w, (h', tr'))
      /\ serialize E input options st
         = renderStage E options (format_option options) fmt color w (h', tr')
      /\ h' !! w = Some (HArray ys)
      /\ ys <> xs
      /\ in_gamut (space col) ys = true in
  (o_inGamut options = VBool true -> in_gamut (space col) xs = false -> mapped)
  /\ (o_inGamut options = VBool false -> truthy (f_toGamut fmt) = false ->
      gamutStage E options fmt color (h, tr)
      = (Ret (length h), ((h ++ [HArray xs])%list, tr))
      /\ serialize E input options st
         = renderStage E options (format_option options) fmt color (length h)
                       ((h ++ [HArray xs])%list, tr))
  /\ (o_inGamut options = VBool false -> truthy (f_toGamut fmt) = true ->
      in_gamut (space col) xs = false -> mapped).
Proof.
  intros mapped. split; [|split].
  - intros Ho Hout. apply gamutStage_maps; [|exact Hout].
    unfold effective_inGamut, inGamut_option. rewrite Ho. reflexivity.
  - intros Ho Hdefault.
    assert (Hflag : truthy (effective_inGamut options fmt) = false).
    { unfold effective_inGamut, inGamut_option. rewrite Ho. exact Hdefault. }
    assert (Hrun : gamutStage E options fmt color (h, tr)
                   = (Ret (length h), ((h ++ [HArray xs])%list, tr))).
    { unfold gamutStage.
      erewrite bind_ret_run by (apply readColor_run; exact Hcolor).
      erewrite bind_ret_run by (apply readArray_run; exact Hcoords).
      rewrite bind_run. unfold allocArray at 1. simpl fst. simpl snd.
      rewrite Hflag. reflexivity. }
    split; [exact Hrun|].
    exact (serialize_stages _ _ _ _ _ _ _ _ _ Hconvert Hrun).
  - intros Ho Hdefault Hout. apply gamutStage_maps; [|exact Hout].
    unfold effective_inGamut, inGamut_option. rewrite Ho. exact Hdefault.
Qed.

End GamutOption.

(** ** The concrete environment keeps to the contracts *)

Lemma demo_with_color {A} l (k : PlainColorObject -> list JsVal -> ext A) (h : heap) r h' :
  Demo.with_color l k h = (r, h') ->
  (exists c xs, h !! l = Some (HColor c) /\ h !! coords c = Some (HArray xs)
                /\ k c xs h = (r, h'))
  \/ (r = Demo.bad_reference /\ h' = h).
Proof.
  unfold Demo.with_color.
  destruct (h !! l) as [[c|ys|o]|] eqn:Hl; [|intros [= <- <-]; auto..].
  destruct (h !! coords c) as [[c'|xs|o]|] eqn:Hxs;
    [intros [= <- <-]; auto| |intros [= <- <-]; auto..].
  intros Hk. left. exists c, xs. auto.
Qed.

Lemma demo_new_color_frame sp xs a (h : heap) r h' :
  Demo.new_color sp xs a h = (r, h') -> frame (length h) h h'.
Proof. intros [= <- <-] l Hl. apply lookup_app_l. exact Hl. Qed.

Lemma demo_coord_ok_clip v : Demo.coord_ok (Demo.clip v) = true.
Proof.
  destruct v as [| | |x| |]; try reflexivity. simpl.
  destruct (PrimFloat.ltb x 0) eqn:H0; [reflexivity|].
  destruct (PrimFloat.ltb 1 x) eqn:H1; [reflexivity|].
  simpl. rewrite H0, H1. reflexivity.
Qed.

Lemma demo_clip_in_gamut sp xs : Demo.in_gamut sp (map Demo.clip xs) = true.
Proof.
  unfold Demo.in_gamut. induction xs as [|x xs IH]; [reflexivity|].
  simpl. rewrite demo_coord_ok_clip, IH. reflexivity.
Qed.

Lemma demo_contracts : Contracts Demo.env.
Proof.
  split; simpl.
  - intros [s|l] h r h'; unfold Demo.getColor.
    { intros [= <- <-]. auto. }
    destruct (h !! l) as [[c|xs|o]|] eqn:Hl; try (intros [= <- <-]; auto; fail).
    destruct (Demo.given_space o) as [sp|]; intros [= <- <-]; [|auto].
    split; [rewrite length_insert; lia|]. intros l' Hl'.
    destruct (decide (l' = l)) as [->|Hne].
    + right. split; [reflexivity|]. eexists o, _. split; [exact Hl|].
      split; [apply list_lookup_insert_eq; exact Hl'|].
      split; [reflexivity|]. intros a Ha. simpl. rewrite Ha. reflexivity.
    + left. apply list_lookup_insert_ne. congruence.
  - intros c s h r h' Hrun.
    destruct (demo_with_color _ _ _ _ _ Hrun) as [(col & xs & _ & _ & Hk)|[_ ->]];
      [exact (demo_new_color_frame _ _ _ _ _ _ Hk)|apply frame_refl].
  - intros c h r h' Hrun.
    destruct (demo_with_color _ _ _ _ _ Hrun) as [(col & xs & _ & _ & [= <- <-])|[_ ->]];
      apply frame_refl.
  - intros c h r h' Hrun.
    destruct (demo_with_color _ _ _ _ _ Hrun) as [(col & xs & _ & _ & Hk)|[_ ->]];
      [exact (demo_new_color_frame _ _ _ _ _ _ Hk)|apply frame_refl].
  - intros c h cl h' Hrun.
    destruct (demo_with_color _ _ _ _ _ Hrun) as [(col & xs & _ & _ & [= <- <-])|[[=] _]].
    split; [lia|]. intros ccl.
    rewrite lookup_app_r by lia.
    replace (S (length h) - length h) with 1 by lia. simpl.
    intros [= <-]. simpl. lia.
  - intros cl sel h r h' Hrun l Hl Hncl Hncoords.
    destruct (demo_with_color _ _ _ _ _ Hrun) as [(col & xs & Hc & _ & [= <- <-])|[_ ->]];
      [|reflexivity].
    apply list_lookup_insert_ne. intros Heq. exact (Hncoords col Hc (eq_sym Heq)).
  - intros cl sel h g h' gc Hrun Hg. left.
    destruct (demo_with_color _ _ _ _ _ Hrun) as [(col & xs & Hc & Hxs & [= <- <-])|[[=] _]].
    exists col. split; [exact Hc|].
    rewrite list_lookup_insert_ne in Hg.
    + rewrite Hc in Hg. injection Hg as <-. reflexivity.
    + intros Heq. rewrite Heq, Hc in Hxs. discriminate.
Qed.

Lemma demo_gamut_contracts : GamutContracts Demo.env Demo.in_gamut.
Proof.
  split; simpl.
  - intros c h col xs Hc Hxs. unfold Demo.checkInGamut, Demo.with_color.
    rewrite Hc, Hxs. reflexivity.
  - intros c h col xs Hc Hxs. unfold Demo.clone, Demo.with_color.
    rewrite Hc, Hxs. unfold Demo.new_color. do 3 eexists. split; [reflexivity|].
    assert (Hlen : S (length h) - length h = 1) by lia.
    split; [|split].
    + rewrite lookup_app_r by lia. rewrite Hlen. reflexivity.
    + reflexivity.
    + simpl. rewrite lookup_app_r by lia. rewrite Nat.sub_diag. reflexivity.
  - intros cl sel h ccl xs Hc Hxs. unfold Demo.toGamut, Demo.with_color.
    rewrite Hc, Hxs. exists cl, (<[coords ccl := HArray (map Demo.clip xs)]> h), ccl,
      (map Demo.clip xs).
    split; [reflexivity|]. split; [|split; [|split]].
    + eapply lookup_color_insert_array; eassumption.
    + eapply lookup_insert_array; eassumption.
    + reflexivity.
    + apply demo_clip_in_gamut.
Qed.

Lemma demo_format_contract fmt :
  f_serializeCoords fmt = Demo.serializeCoords ->
  f_serialize fmt = None \/ f_serialize fmt = Some Demo.count_hook ->
  format_contract fmt.
Proof.
  intros Hsc Hhook. split.
  - intros w p cf h r h'. rewrite Hsc. unfold Demo.serializeCoords.
    destruct (h !! w) as [[c|xs|o']|]; intros [= <- <-]; split.
    all: try (intros l Hl _; first [reflexivity | apply lookup_app_l, Hl]).
    all: intros args Hargs; try discriminate Hargs.
    injection Hargs as <-. right. lia.
  - intros hook w a o h r h' Hh. destruct Hhook as [Hn|Hs]; [congruence|].
    rewrite Hs in Hh. injection Hh as <-. unfold Demo.count_hook.
    destruct (h !! w) as [[c|xs|o']|]; intros [= <- <-]; reflexivity.
Qed.

Lemma demo_all_formats fmt : In fmt Demo.all_formats -> format_contract fmt.
Proof.
  intros Hin. simpl in Hin.
  repeat (destruct Hin as [<-|Hin];
          [apply demo_format_contract; [reflexivity|simpl; auto]|]).
  destruct Hin.
Qed.

Lemma demo_assoc_in k l f :
  Demo.assoc k l = Some f -> In f (map snd l).
Proof.
  induction l as [|[k' f'] l IH]; [discriminate|]. simpl.
  destruct (k' =? k); [intros [= <-]; auto|auto].
Qed.

Lemma demo_formats_of_in sp f :
  In f (map snd (Demo.formats_of sp)) -> In f Demo.all_formats.
Proof.
  unfold Demo.formats_of.
  destruct (space_same sp Demo.srgb); [|destruct (space_same sp Demo.p3)];
    simpl; intuition auto 10.
Qed.

Lemma demo_getFormat_in sp name f :
  Demo.getFormat sp name = Some f -> In f Demo.all_formats.
Proof.
  unfold Demo.getFormat. destruct (name =? "default").
  - destruct (Demo.formats_of sp) as [|[k f'] l] eqn:Hl; [discriminate|].
    intros [= <-]. apply (demo_formats_of_in sp). rewrite Hl. simpl. auto.
  - intros Ha. apply demo_assoc_in in Ha. exact (demo_formats_of_in _ _ Ha).
Qed.

Lemma demo_formats sp name : format_contract (resolveFormat Demo.env sp name).
Proof.
  apply demo_all_formats. unfold resolveFormat.
  change (getFormat Demo.env) with Demo.getFormat.
  change (findFormat Demo.env) with Demo.findFormat.
  destruct (Demo.getFormat sp name) as [f|] eqn:H1;
    [exact (demo_getFormat_in _ _ _ H1)|].
  destruct (Demo.findFormat name) as [f|] eqn:H2.
  { unfold Demo.findFormat in H2. apply demo_assoc_in in H2.
    rewrite map_app in H2. apply in_app_or in H2.
    destruct H2 as [H2|H2]; exact (demo_formats_of_in _ _ H2). }
  destruct (Demo.getFormat sp "default") as [f|] eqn:H3;
    [exact (demo_getFormat_in _ _ _ H3)|].
  simpl. auto 10.
Qed.

(** ** The contracts at work on an out-of-gamut color *)

(** With [inGamut: false], a format whose [toGamut] default is [true] has the
    color mapped all the same: [toGamut] is called, and the coordinates
    written are not the raw ones. *)
Lemma C6_counterexample :
  o_inGamut (Demo.with_format_inGamut "rgba" (VBool false)) = VBool false
  /\ In (EToGamut 4 VUndefined (Ret 4))
        (snd (snd (serialize Demo.env (CObject 1)
                             (Demo.with_format_inGamut "rgba" (VBool false))
                             (Demo.wide_store 1%float, []))))
  /\ Demo.run (Demo.wide_store 1%float) (Demo.with_format_inGamut "rgba" (VBool false))
     = Ret "rgba(1, 0, 0.5, 1)"
  /\ Demo.run (Demo.wide_store 1%float) (Demo.with_format_inGamut "color" (VBool false))
     = Ret "color(srgb 1.5 -0.25 0.5)".
Proof.
  split; [reflexivity|]. split; [|split; reflexivity].
  vm_compute. auto 10.
Qed.

Lemma C6_witness :
  (exists w h' tr' ys,
     gamutStage Demo.env (Demo.with_format_inGamut "color" (VBool true))
                Demo.color_format 1
                (Demo.wide_store 1%float, [EGetColor (CObject 1) (Ret 1)])
     = (Ret w, (h', tr'))
     /\ h' !! w = Some (HArray ys)
     /\ ys <> Demo.wide_coords
     /\ Demo.in_gamut Demo.srgb ys = true)
  /\ gamutStage Demo.env (Demo.with_format_inGamut "color" (VBool false))
                Demo.color_format 1
                (Demo.wide_store 1%float, [EGetColor (CObject 1) (Ret 1)])
     = (Ret 2, ((Demo.wide_store 1%float ++ [HArray Demo.wide_coords])%list,
                [EGetColor (CObject 1) (Ret 1)])).
Proof.
  split.
  - destruct (C6_inGamut_option Demo.env Demo.in_gamut demo_gamut_contracts
                (CObject 1) (Demo.with_format_inGamut "color" (VBool true))
                (Demo.wide_store 1%float, []) Demo.color_format 1
                (Demo.wide_store 1%float) [EGetColor (CObject 1) (Ret 1)]
                (Demo.wide 1%float) Demo.wide_coords
                eq_refl eq_refl eq_refl) as (Hmapped & _ & _).
    destruct Hmapped as (w & h' & tr' & ys & Hrun & _ & Hys & Hne & Hin);
      [reflexivity..|].
    exists w, h', tr', ys. auto.
  - destruct (C6_inGamut_option Demo.env Demo.in_gamut demo_gamut_contracts
                (CObject 1) (Demo.with_format_inGamut "color" (VBool false))
                (Demo.wide_store 1%float, []) Demo.color_format 1
                (Demo.wide_store 1%float) [EGetColor (CObject 1) (Ret 1)]
                (Demo.wide 1%float) Demo.wide_coords
                eq_refl eq_refl eq_refl) as (_ & Hraw & _).
    apply Hraw; reflexivity.
Defined.



Lemma C10_witness :
  exists w h2 tr2 args h3,
    gamutStage Demo.env no_options Demo.color_format 1
               (Demo.wide_store 0.5%float, [EGetColor (CObject 1) (Ret 1)])
    = (Ret w, (h2, tr2))
    /\ Demo.serializeCoords w (VNum 5%float) VUndefined h2 = (Ret args, h3)
    /\ h3 !! args = Some (HArray [VStr "1"; VStr "0"; VStr "0.5"])
    /\ Demo.run (Demo.wide_store 0.5%float) no_options
       = Ret (functional_text Demo.env Demo.color_format Demo.srgb
                              [VStr "1"; VStr "0"; VStr "0.5"] " / 0.5").
Proof.
  unfold Demo.run.
  destruct (serialize Demo.env (CObject 1) no_options (Demo.wide_store 0.5%float, []))
    as [r [h' tr']] eqn:Hrun.
  destruct (C10_alpha_untouched Demo.env demo_contracts demo_formats
              (CObject 1) no_options (Demo.wide_store 0.5%float) []
              Demo.color_format 1 (Demo.wide_store 0.5%float)
              [EGetColor (CObject 1) (Ret 1)] (Demo.wide 0.5%float) r h' tr'
              eq_refl eq_refl Hrun)
    as (new & _ & _ & Htext).
  assert (Hr : r = Ret "color(srgb 1 0 0.5 / 0.5)")
    by (apply (f_equal fst) in Hrun; symmetry; exact Hrun).
  destruct (Htext ltac:(discriminate) _ Hr)
    as (w & h2 & tr2 & args & h3 & xs & Hg & Hsc & Hargs & Hxs).
  assert (Hw : w = 3 /\ h2 = (Demo.wide_store 0.5%float
                               ++ [HArray Demo.wide_coords;
                                   HArray [VNum 1%float; VNum 0%float; VNum 0.5%float];
                                   HColor {| space := Demo.srgb; coords := 3;
                                             alpha := 0.5%float |}])%list).
  { pose proof (f_equal fst Hg) as H1. pose proof (f_equal (fun x => fst (snd x)) Hg) as H2.
    simpl in H1, H2. injection H1 as <-. split; [reflexivity | symmetry; exact H2]. }
  destruct Hw as [-> ->].
  assert (Ha : args = 5 /\ xs = [VStr "1"; VStr "0"; VStr "0.5"]).
  { pose proof (f_equal fst Hsc) as H1. pose proof (f_equal snd Hsc) as H2.
    simpl in H1, H2. injection H1 as <-. split; [reflexivity|].
    rewrite <- H2 in Hargs. simpl in Hargs. injection Hargs as <-. reflexivity. }
  destruct Ha as [-> ->].
  eexists 3, _, tr2, 5, h3. rewrite Hr. simpl fst. rewrite Hxs.
  split; [exact Hg|]. split; [exact Hsc|]. split; [exact Hargs | reflexivity].
Defined.

(** ** The calls of a run *)

Lemma emits_bind {A B} (T1 : list Event -> outcome A -> Prop)
    (T2 : A -> list Event -> outcome B -> Prop)
    (T : list Event -> outcome B -> Prop) (m : M A) (k : A -> M B) :
  emits T1 m ->
  (forall a, emits (T2 a) (k a)) ->
  (forall n1 e, T1 n1 (Throw e) -> T n1 (Throw e)) ->
  (forall n1 a n2 r, T1 n1 (Ret a) -> T2 a n2 r -> T (n1 ++ n2)%list r) ->
  emits T (bind m k).
Proof.
  intros Hm Hk Hthrow Hret h tr r h' tr' Hrun. rewrite bind_run in Hrun.
  destruct (m (h, tr)) as [[a|e] [h1 tr1]] eqn:Hm1.
  - destruct (Hm _ _ _ _ _ Hm1) as (n1 & -> & H1).
    destruct (Hk a _ _ _ _ _ Hrun) as (n2 & -> & H2).
    exists (n1 ++ n2)%list. split; [symmetry; apply app_assoc|]. eauto.
  - injection Hrun as <- <- <-.
    destruct (Hm _ _ _ _ _ Hm1) as (n1 & -> & H1). eauto.
Qed.

Lemma emits_weaken {A} (T T' : list Event -> outcome A -> Prop) (m : M A) :
  emits T m -> (forall new r, T new r -> T' new r) -> emits T' m.
Proof.
  intros Hm HT h tr r h' tr' Hrun.
  destruct (Hm _ _ _ _ _ Hrun) as (new & -> & H). eauto.
Qed.

Lemma emits_ret {A} (a : A) : emits silent (ret a).
Proof.
  intros h tr r h' tr' [= <- <- <-]. exists []. rewrite app_nil_r. split; reflexivity.
Qed.

Lemma emits_throw {A} e : emits silent (@throw A e).
Proof.
  intros h tr r h' tr' [= <- <- <-]. exists []. rewrite app_nil_r. split; reflexivity.
Qed.

Lemma emits_readColor l : emits silent (readColor l).
Proof.
  intros h tr r h' tr' Hrun. exists []. rewrite app_nil_r. split; [|reflexivity].
  destruct (readColor_cases l (h, tr)) as [(c & _ & R) | (_ & e & R)];
    rewrite R in Hrun; injection Hrun as _ _ <-; reflexivity.
Qed.

Lemma emits_readArray l : emits silent (readArray l).
Proof.
  intros h tr r h' tr' Hrun. exists []. rewrite app_nil_r. split; [|reflexivity].
  destruct (readArray_cases l (h, tr)) as [(c & _ & R) | (_ & e & R)];
    rewrite R in Hrun; injection Hrun as _ _ <-; reflexivity.
Qed.

Lemma emits_allocArray xs : emits silent (allocArray xs).
Proof.
  intros h tr r h' tr' [= <- <- <-]. exists []. rewrite app_nil_r. split; reflexivity.
Qed.

Lemma emits_writeArray l xs : emits silent (writeArray l xs).
Proof.
  intros h tr r h' tr' [= <- <- <-]. exists []. rewrite app_nil_r. split; reflexivity.
Qed.

Lemma emits_call {A} (ev : outcome A -> Event) (f : ext A) :
  emits (fun new r => new = [ev r]) (call ev f).
Proof.
  intros h tr r h' tr' Hrun. unfold call in Hrun. simpl in Hrun.
  destruct (f h) as [r1 h1]. injection Hrun as <- <- <-. eauto.
Qed.

Lemma silent_bind {A B} (m : M A) (k : A -> M B) :
  emits silent m -> (forall a, emits silent (k a)) -> emits silent (bind m k).
Proof.
  intros Hm Hk. eapply emits_bind; [exact Hm | exact Hk | |].
  - intros n1 e H. exact H.
  - intros n1 a n2 r -> ->. reflexivity.
Qed.

Create HintDb emits.

#[local] Hint Resolve emits_ret emits_throw emits_readColor emits_readArray
  emits_allocArray emits_writeArray : emits.

(** Proves that a block of property reads and array operations calls nothing. *)
Ltac silent_block :=
  repeat first
    [ solve [eauto with emits]
    | apply silent_bind; [|intros ?]
    | match goal with
      | |- emits _ (match ?x with _ => _ end) => destruct x
      end ].

Lemma emits_read_cssId fmt color : emits silent (read_cssId fmt color).
Proof. unfold read_cssId. silent_block. Qed.

#[local] Hint Resolve emits_read_cssId : emits.

(** *** Exceptions are not caught *)

Lemma propagates_silent {A} (new : list Event) (r : outcome A) :
  silent new r -> propagates new r.
Proof. intros ->. left. constructor. Qed.

Lemma propagates_bind {A B} (m : M A) (k : A -> M B) :
  emits propagates m -> (forall a, emits propagates (k a)) ->
  emits propagates (bind m k).
Proof.
  intros Hm Hk. eapply emits_bind; [exact Hm | exact Hk | |].
  - intros n1 e [Hall | (pre & ev & e' & -> & Hpre & Hev & [= ->])].
    + left. exact Hall.
    + right. exists pre, ev, e'. auto.
  - intros n1 a n2 r [Hall | (pre & ev & e' & _ & _ & _ & [=])].
    intros [Hall2 | (pre & ev & e' & -> & Hpre & Hev & ->)].
    + left. apply Forall_app. auto.
    + right. exists (n1 ++ pre)%list, ev, e'.
      split; [apply app_assoc|]. split; [apply Forall_app; auto|]. auto.
Qed.

Lemma propagates_call {A} (ev : outcome A -> Event) (f : ext A) :
  (forall r, event_error (ev r) = outcome_error r) ->
  emits propagates (call ev f).
Proof.
  intros Hev. eapply emits_weaken; [apply emits_call|].
  intros new [a|e] ->.
  - left. constructor; [|constructor]. unfold returned. rewrite Hev. reflexivity.
  - right. exists [], (ev (Throw e)), e. rewrite Hev. repeat split. constructor.
Qed.

Ltac propagates_step :=
  cbv beta zeta;
  first
    [ apply propagates_bind; [|intros ?]
    | apply propagates_call; intros ?; reflexivity
    | eapply emits_weaken; [solve [silent_block] | apply @propagates_silent]
    | match goal with
      | |- emits _ (match ?x with _ => _ end) => destruct x
      end ].

Lemma convertStage_propagates E input format :
  emits propagates (convertStage E input format).
Proof. unfold convertStage. repeat propagates_step. Qed.

Lemma gamutStage_propagates E options fmt color :
  emits propagates (gamutStage E options fmt color).
Proof. unfold gamutStage. repeat propagates_step. Qed.

Lemma renderStage_propagates E options formatId fmt color w :
  emits propagates (renderStage E options formatId fmt color w).
Proof.
  unfold renderStage, customStage, functionalStage. repeat propagates_step.
Qed.

Lemma serialize_propagates E input options :
  emits propagates (serialize E input options).
Proof.
  unfold serialize.
  apply propagates_bind; [apply convertStage_propagates|]. intros fc.
  apply propagates_bind; [apply gamutStage_propagates|]. intros w.
  apply renderStage_propagates.
Qed.

(** X1: [serialize] catches nothing.  Of the calls it makes, only the last
    can have thrown, and then [serialize] throws that very error: no imported
    function and no hook is called after a failure.  When [serialize]
    returns, every call has returned. *)
Theorem X1_errors_propagate E input options h tr r h' tr' :
  serialize E input options (h, tr) = (r, (h', tr')) ->
  exists new,
    tr' = (tr ++ new)%list
    /\ (forall s, r = Ret s -> Forall returned new)
    /\ (forall pre ev post e,
          new = (pre ++ ev :: post)%list -> event_error ev = Some e ->
          post = [] /\ r = Throw e).
Proof.
  intros Hrun.
  destruct (serialize_propagates E input options _ _ _ _ _ Hrun) as (new & -> & HP).
  exists new. split; [reflexivity|].
  destruct HP as [Hall | (pre0 & ev0 & e0 & -> & Hpre & Hev & ->)].
  - split; [auto|]. intros pre ev post e -> He.
    apply Forall_app in Hall as [_ Hall]. apply Forall_cons in Hall as [Hr _].
    unfold returned in Hr. congruence.
  - split; [intros s [=]|]. intros pre ev post e Heq He.
    destruct post as [|p post'] using rev_ind.
    + apply app_inj_tail in Heq as [-> ->]. split; [reflexivity|]. congruence.
    + clear IHpost'. rewrite app_comm_cons, app_assoc in Heq.
      apply app_inj_tail in Heq as [-> _].
      apply Forall_app in Hpre as [_ Hall]. apply Forall_cons in Hall as [Hr _].
      unfold returned in Hr. congruence.
Qed.

Lemma X1_witness :
  exists new,
    [EGetColor (CString "rouge") (Throw (TypeError "Could not parse rouge"))]
    = ([] ++ new)%list
    /\ (forall s, @Throw string (TypeError "Could not parse rouge") = Ret s ->
                  Forall returned new)
    /\ (forall pre ev post e,
          new = (pre ++ ev :: post)%list -> event_error ev = Some e ->
          post = [] /\ @Throw string (TypeError "Could not parse rouge") = Throw e).
Proof.
  apply (X1_errors_propagate Demo.env (CString "rouge") no_options
           (Demo.red_store 1%float) [] _ (Demo.red_store 1%float)).
  reflexivity.
Defined.

(** *** The order of the calls *)

Lemma in_order_nil lo hi : in_order lo hi [].
Proof. split; [intros ev []|]. intros i j a b _ H. discriminate H. Qed.

Lemma in_order_one lo hi ev : lo <= rank ev < hi -> in_order lo hi [ev].
Proof.
  intros Hr. split.
  - intros ev' [<-|[]]. exact Hr.
  - intros i j a b Hij Hi Hj. destruct j as [|j]; [lia|]. discriminate Hj.
Qed.

Lemma in_order_weaken lo hi lo' hi' new :
  lo' <= lo -> hi <= hi' -> in_order lo hi new -> in_order lo' hi' new.
Proof.
  intros Hlo Hhi [Hb Hs]. split; [|exact Hs].
  intros ev Hin. specialize (Hb ev Hin). lia.
Qed.

Lemma in_order_app lo mid hi n1 n2 :
  lo <= mid <= hi ->
  in_order lo mid n1 -> in_order mid hi n2 -> in_order lo hi (n1 ++ n2)%list.
Proof.
  intros Hm [Hb1 Hs1] [Hb2 Hs2]. split.
  - intros ev Hin. apply in_app_or in Hin as [Hin|Hin].
    + specialize (Hb1 ev Hin). lia.
    + specialize (Hb2 ev Hin). lia.
  - intros i j a b Hij Hi Hj.
    destruct (decide (j < length n1)) as [Hjl|Hjl].
    + rewrite lookup_app_l in Hi by lia. rewrite lookup_app_l in Hj by lia. eauto.
    + rewrite lookup_app_r in Hj by lia.
      destruct (decide (i < length n1)) as [Hil|Hil].
      * rewrite lookup_app_l in Hi by lia.
        apply list_elem_of_lookup_2, list_elem_of_In in Hi, Hj.
        specialize (Hb1 a Hi). specialize (Hb2 b Hj). lia.
      * rewrite lookup_app_r in Hi by lia.
        apply (Hs2 (i - length n1) (j - length n1)); [lia | exact Hi | exact Hj].
Qed.

Lemma in_order_silent {A} lo hi (m : M A) :
  emits silent m -> emits (fun new _ => in_order lo hi new) m.
Proof.
  intros Hm. eapply emits_weaken; [exact Hm|]. intros new r ->. apply in_order_nil.
Qed.

Lemma in_order_call {A} lo hi (ev : outcome A -> Event) (f : ext A) k :
  (forall r, rank (ev r) = k) -> lo <= k < hi ->
  emits (fun new _ => in_order lo hi new) (call ev f).
Proof.
  intros Hk Hb. eapply emits_weaken; [apply emits_call|].
  intros new r ->. apply in_order_one. rewrite Hk. exact Hb.
Qed.

Lemma in_order_bind {A B} lo mid hi (m : M A) (k : A -> M B) :
  lo <= mid <= hi ->
  emits (fun new _ => in_order lo mid new) m ->
  (forall a, emits (fun new _ => in_order mid hi new) (k a)) ->
  emits (fun new _ => in_order lo hi new) (bind m k).
Proof.
  intros Hm H1 H2.
  eapply emits_bind with (T2 := fun _ new _ => in_order mid hi new);
    [exact H1 | exact H2 | |].
  - intros n1 e H. eapply in_order_weaken; [| |exact H]; lia.
  - intros n1 a n2 r Ha Hb. eapply in_order_app; eassumption.
Qed.

(** A step that calls nothing, then the rest. *)
Lemma in_order_bind_silent {A B} lo hi (m : M A) (k : A -> M B) :
  emits silent m ->
  (forall a, emits (fun new _ => in_order lo hi new) (k a)) ->
  emits (fun new _ => in_order lo hi new) (bind m k).
Proof.
  intros H1 H2. destruct (decide (lo <= hi)) as [Hle|Hgt].
  - apply (in_order_bind lo lo hi); [lia | apply in_order_silent, H1 | exact H2].
  - eapply emits_bind with (T2 := fun _ new _ => in_order lo hi new);
      [exact H1 | exact H2 | |].
    + intros n1 e ->. apply in_order_nil.
    + intros n1 a n2 r -> H. exact H.
Qed.

(** A call of place [k], then the rest. *)
Lemma in_order_bind_call {A B} lo hi (ev : outcome A -> Event) (f : ext A)
    (k : A -> M B) p :
  (forall r, rank (ev r) = p) -> lo <= p < hi ->
  (forall a, emits (fun new _ => in_order (S p) hi new) (k a)) ->
  emits (fun new _ => in_order lo hi new) (bind (call ev f) k).
Proof.
  intros Hp Hb Hk. apply (in_order_bind lo (S p) hi); [lia| |exact Hk].
  apply (in_order_call lo (S p) ev f p); [exact Hp | lia].
Qed.

Ltac in_order_step :=
  cbv beta zeta;
  first
    [ eapply in_order_bind_call; [intros ?; simpl; reflexivity | simpl; lia | intros ?]
    | eapply in_order_call; [intros ?; simpl; reflexivity | simpl; lia]
    | apply in_order_bind_silent; [solve [silent_block] | intros ?]
    | apply in_order_silent; solve [silent_block]
    | match goal with
      | |- emits _ (match ?x with _ => _ end) => destruct x
      end ].

Lemma convertStage_in_order E input format :
  emits (fun new _ => in_order 0 2 new) (convertStage E input format).
Proof. unfold convertStage. repeat in_order_step. Qed.

Lemma gamutStage_in_order E options fmt color :
  emits (fun new _ => in_order 2 5 new) (gamutStage E options fmt color).
Proof. unfold gamutStage. repeat in_order_step. Qed.

Lemma renderStage_in_order E options formatId fmt color w :
  emits (fun new _ => in_order 5 6 new) (renderStage E options formatId fmt color w).
Proof.
  unfold renderStage, customStage, functionalStage. repeat in_order_step.
Qed.

Lemma serialize_in_order E input options :
  emits (fun new _ => in_order 0 6 new) (serialize E input options).
Proof.
  unfold serialize.
  apply (in_order_bind 0 2 6); [lia | apply convertStage_in_order|]. intros fc.
  apply (in_order_bind 2 5 6); [lia | apply gamutStage_in_order|]. intros w.
  apply renderStage_in_order.
Qed.

(** The first call is that of [getColor] on the input (line 29). *)
Lemma convertStage_first_call E input format :
  emits (fun new _ => exists r0 rest, new = EGetColor input r0 :: rest)
        (convertStage E input format).
Proof.
  unfold convertStage.
  eapply emits_bind with (T2 := fun _ _ _ => True); [apply emits_call | | |].
  - intros c.
    eapply emits_weaken with (T := fun new _ => in_order 1 2 new); [|auto].
    repeat in_order_step.
  - intros n1 e ->. eauto.
  - intros n1 a n2 r -> _. simpl. eauto.
Qed.

Lemma serialize_first_call E input options :
  emits (fun new _ => exists r0 rest, new = EGetColor input r0 :: rest)
        (serialize E input options).
Proof.
  unfold serialize.
  eapply emits_bind with (T2 := fun _ _ _ => True);
    [apply convertStage_first_call | | |].
  - intros fc.
    eapply emits_weaken with (T := fun new _ => in_order 2 6 new); [|auto].
    apply (in_order_bind 2 5 6); [lia | apply gamutStage_in_order|]. intros w.
    apply renderStage_in_order.
  - intros n1 e H. exact H.
  - intros n1 a n2 r (r0 & rest & ->) _. simpl. eauto.
Qed.

(** X2: the imported functions and the hooks are called in the order of the
    source, [getColor], [to], [checkInGamut], [clone], [toGamut], then
    [serializeCoords] or the hook of a custom format, and each of them at
    most once; [getColor] is always called, first, on the input. *)
Theorem X2_call_order E input options h tr r h' tr' :
  serialize E input options (h, tr) = (r, (h', tr')) ->
  exists new,
    tr' = (tr ++ new)%list
    /\ (exists r0 rest, new = EGetColor input r0 :: rest)
    /\ (forall i j a b,
          i < j -> new !! i = Some a -> new !! j = Some b -> rank a < rank b)
    /\ (forall i j a, new !! i = Some a -> new !! j = Some a -> i = j).
Proof.
  intros Hrun.
  destruct (serialize_in_order E input options _ _ _ _ _ Hrun) as (new & -> & _ & Hs).
  destruct (serialize_first_call E input options _ _ _ _ _ Hrun)
    as (new' & Heq & Hfirst).
  apply app_inv_head in Heq as <-. exists new. split; [reflexivity|].
  split; [exact Hfirst|]. split; [exact Hs|].
  intros i j a Hi Hj.
  destruct (Nat.lt_trichotomy i j) as [Hlt|[Heq'|Hgt]]; [|exact Heq'|].
  - specialize (Hs i j a a Hlt Hi Hj). lia.
  - specialize (Hs j i a a Hgt Hj Hi). lia.
Qed.

Lemma X2_witness :
  exists new,
    [EGetColor (CObject 1) (Ret 1); ECheckInGamut 1 (Ret false); EClone 1 (Ret 4);
     EToGamut 4 VUndefined (Ret 4);
     ESerializeCoords 3 (VNum 5%float) VUndefined (Ret 5)]
    = ([] ++ new)%list
    /\ (exists r0 rest, new = EGetColor (CObject 1) r0 :: rest)
    /\ (forall i j a b,
          i < j -> new !! i = Some a -> new !! j = Some b -> rank a < rank b)
    /\ (forall i j a, new !! i = Some a -> new !! j = Some a -> i = j).
Proof.
  apply (X2_call_order Demo.env (CObject 1) no_options (Demo.wide_store 1%float) []
           (fst (serialize Demo.env (CObject 1) no_options (Demo.wide_store 1%float, [])))
           (fst (snd (serialize Demo.env (CObject 1) no_options
                                (Demo.wide_store 1%float, []))))).
  reflexivity.
Defined.

(** *** What every call of a run is *)

Lemma every_bind {A B} (P : Event -> Prop) (m : M A) (k : A -> M B) :
  emits (fun new _ => Forall P new) m ->
  (forall a, emits (fun new _ => Forall P new) (k a)) ->
  emits (fun new _ => Forall P new) (bind m k).
Proof.
  intros Hm Hk.
  eapply emits_bind with (T2 := fun _ new _ => Forall P new); [exact Hm | exact Hk | |].
  - intros n1 e H. exact H.
  - intros n1 a n2 r H1 H2. apply Forall_app. auto.
Qed.

Lemma every_silent {A} (P : Event -> Prop) (m : M A) :
  emits silent m -> emits (fun new _ => Forall P new) m.
Proof.
  intros Hm. eapply emits_weaken; [exact Hm|]. intros new r ->. constructor.
Qed.

Lemma every_call {A} (P : Event -> Prop) (ev : outcome A -> Event) (f : ext A) :
  (forall r, P (ev r)) -> emits (fun new _ => Forall P new) (call ev f).
Proof.
  intros HP. eapply emits_weaken; [apply emits_call|].
  intros new r ->. constructor; [apply HP | constructor].
Qed.

Lemma every_in_order lo hi {A} (m : M A) :
  emits (fun new _ => in_order lo hi new) m ->
  emits (fun new _ => Forall (fun ev => lo <= rank ev < hi) new) m.
Proof.
  intros Hm. eapply emits_weaken; [exact Hm|].
  intros new r [Hb _]. apply Forall_forall. intros ev Hin.
  apply Hb, list_elem_of_In, Hin.
Qed.

(** Lines 47-54 ask [checkInGamut] about the color they are given, and
    clone that color. *)
Lemma gamutStage_on_color E options fmt color :
  emits (fun new _ =>
           Forall (fun ev =>
                     2 <= rank ev < 5
                     /\ (forall c r, ev = ECheckInGamut c r -> c = color)
                     /\ (forall c r, ev = EClone c r -> c = color)) new)
        (gamutStage E options fmt color).
Proof.
  unfold gamutStage.
  repeat first
    [ progress cbv beta zeta
    | apply every_bind; [|intros ?]
    | apply every_silent; solve [silent_block]
    | apply every_call; intros ?; simpl;
      (split; [lia|]); split; intros ? ? [=]; congruence
    | match goal with
      | |- emits _ (match ?x with _ => _ end) => destruct x
      end ].
Qed.

(** X3: the color is converted exactly when the format has a space that is
    not the space of the color.  Then [to] is called, right after [getColor],
    on the color and the space of the format, and it is the color it returns
    that [checkInGamut] is asked about.  Otherwise [to] is not called and
    [checkInGamut] is asked about the color that [getColor] has returned. *)
Theorem X3_conversion E input options h tr r h' tr' c h1 col :
  getColor E input h = (Ret c, h1) ->
  h1 !! c = Some (HColor col) ->
  serialize E input options (h, tr) = (r, (h', tr')) ->
  let fmt := resolveFormat E (space col) (format_option options) in
  let other := match f_space fmt with
               | Some s => negb (space_same s (space col))
               | None => false
               end in
  exists new,
    tr' = (tr ++ new)%list
    /\ (other = false ->
        (forall c0 s r0, ~ In (ETo c0 s r0) new)
        /\ forall c1 r1, In (ECheckInGamut c1 r1) new -> c1 = c)
    /\ (other = true ->
        exists s rt h2 rest,
          f_space fmt = Some s
          /\ to E c s h1 = (rt, h2)
          /\ new = EGetColor input (Ret c) :: ETo c s rt :: rest
          /\ (forall c0 s0 r0, ~ In (ETo c0 s0 r0) rest)
          /\ forall c1 r1, In (ECheckInGamut c1 r1) rest -> rt = Ret c1).
Proof.
  intros Hget Hcol Hrun fmt other.
  (* what comes after the conversion *)
  assert (Hlater : forall color st1 r2 h2 tr2,
             (coords <- gamutStage E options fmt color ;;
              renderStage E options (format_option options) fmt color coords) st1
             = (r2, (h2, tr2)) ->
             exists rest,
               tr2 = (snd st1 ++ rest)%list
               /\ (forall c0 s0 r0, ~ In (ETo c0 s0 r0) rest)
               /\ forall c1 r1, In (ECheckInGamut c1 r1) rest -> c1 = color).
  { intros color [h3 tr3] r2 h2 tr2 Hlater.
    assert (Hev : emits (fun new _ =>
                Forall (fun ev => 2 <= rank ev
                                  /\ forall c r, ev = ECheckInGamut c r -> c = color) new)
              (coords <- gamutStage E options fmt color ;;
               renderStage E options (format_option options) fmt color coords)).
    { apply every_bind.
      - eapply emits_weaken; [apply gamutStage_on_color|]. cbv beta.
        intros new _ Hall. eapply Forall_impl; [exact Hall|].
        intros ev (Hr & Hc & _). split; [lia | exact Hc].
      - intros w. eapply emits_weaken;
          [apply (every_in_order 5 6), renderStage_in_order|]. cbv beta.
        intros new _ Hall. eapply Forall_impl; [exact Hall|].
        intros ev Hr. cbv beta in Hr. split; [lia|]. intros c0 r0 ->. simpl in Hr. lia. }
    destruct (Hev _ _ _ _ _ Hlater) as (rest & -> & Hall).
    exists rest. split; [reflexivity|]. rewrite Forall_forall in Hall. split.
    - intros c0 s0 r0 Hin. apply list_elem_of_In, Hall in Hin as [Hr _].
      simpl in Hr. lia.
    - intros c1 r1 Hin. apply list_elem_of_In, Hall in Hin as [_ Hc]. eauto. }
  unfold serialize in Hrun. rewrite bind_run in Hrun.
  destruct (convertStage E input (format_option options) (h, tr))
    as [r0 [h0 tr0]] eqn:Hconv.
  destruct (convertStage_cases _ _ _ _ _ _ _ _ Hconv)
    as [(e & Hg & _) | (c' & h1' & Hg & Hcases)]; [congruence|].
  rewrite Hget in Hg. injection Hg as <- <-.
  destruct Hcases as [(Hno & _) | (col' & Hcol' & Hcases)];
    [exfalso; exact (Hno _ Hcol)|].
  rewrite Hcol in Hcol'. injection Hcol' as <-.
  cbv zeta in Hcases. fold fmt in Hcases. fold other in Hcases.
  destruct Hcases as [(Hother & -> & -> & ->) | (Hother & s & rt & Hs & Hto & -> & ->)].
  - simpl fst in Hrun. simpl snd in Hrun.
    destruct (Hlater _ _ _ _ _ Hrun) as (rest & -> & HnoTo & Hcheck). simpl snd.
    exists (EGetColor input (Ret c) :: rest). rewrite <- app_assoc.
    split; [reflexivity|]. split; [|congruence].
    intros _. split.
    + intros c0 s0 r0 [Hin|Hin]; [discriminate|]. exact (HnoTo _ _ _ Hin).
    + intros c1 r1 [Hin|Hin]; [discriminate|]. exact (Hcheck _ _ Hin).
  - destruct rt as [c2|e].
    + simpl fst in Hrun. simpl snd in Hrun.
      destruct (Hlater _ _ _ _ _ Hrun) as (rest & -> & HnoTo & Hcheck). simpl snd.
      exists (EGetColor input (Ret c) :: ETo c s (Ret c2) :: rest).
      rewrite <- app_assoc. split; [reflexivity|]. split; [congruence|].
      intros _. exists s, (Ret c2), h0, rest. repeat split; auto.
      intros c1 r1 Hin. rewrite (Hcheck _ _ Hin). reflexivity.
    + injection Hrun as <- <- <-.
      exists [EGetColor input (Ret c); ETo c s (Throw e)].
      split; [reflexivity|]. split; [congruence|].
      intros _. exists s, (Throw e), h0, []. repeat split; auto.
      intros c1 r1 [].
Qed.

Lemma X3_witness :
  exists rest,
    snd (snd (serialize Demo.env (CObject 1) (Demo.with_format "rgba")
                        (Demo.p3_store, [])))
    = EGetColor (CObject 1) (Ret 1) :: ETo 1 Demo.srgb (Ret 3) :: rest.
Proof.
  destruct (X3_conversion Demo.env (CObject 1) (Demo.with_format "rgba")
              Demo.p3_store []
              (fst (serialize Demo.env (CObject 1) (Demo.with_format "rgba")
                              (Demo.p3_store, [])))
              (fst (snd (serialize Demo.env (CObject 1) (Demo.with_format "rgba")
                                   (Demo.p3_store, []))))
              (snd (snd (serialize Demo.env (CObject 1) (Demo.with_format "rgba")
                                   (Demo.p3_store, []))))
              1 Demo.p3_store Demo.p3_color)
    as (new & Hnew & _ & Hconv); [reflexivity..|].
  destruct (Hconv eq_refl) as (s & rt & h2 & rest & Hs & Hto & Hnew' & _).
  exists rest. rewrite Hnew, Hnew'.
  injection Hs as <-. apply (f_equal fst) in Hto. simpl fst in Hto. rewrite <- Hto.
  reflexivity.
Defined.

(** *** The renderer of a format *)

(** Lines 56-103 make one call at most: the hook of a custom format, or
    [serializeCoords] of another format, on the working coordinates. *)
Lemma renderStage_calls E options formatId fmt color w :
  emits (fun new _ =>
           Forall (fun ev =>
                     match ev with
                     | ESerializeHook w' _ o _ =>
                       w' = w /\ o = options /\ f_type fmt = "custom"
                       /\ exists hook, f_serialize fmt = Some hook
                     | ESerializeCoords w' p cf _ =>
                       w' = w /\ p = precision_option E options
                       /\ cf = o_coords options /\ f_type fmt <> "custom"
                     | _ => False
                     end) new)
        (renderStage E options formatId fmt color w).
Proof.
  unfold renderStage. destruct (f_type fmt =? "custom") eqn:Ht.
  - apply String.eqb_eq in Ht. unfold customStage.
    destruct (f_serialize fmt) as [hook|] eqn:Hh.
    + apply every_bind; [apply every_silent, emits_readColor|]. intros c.
      apply every_call. intros r. eauto.
    + apply every_silent, emits_throw.
  - apply String.eqb_neq in Ht. unfold functionalStage. cbv zeta.
    apply every_bind; [apply every_call; intros r; auto|]. intros args.
    apply every_silent. silent_block.
Qed.

(** X9: a format has one renderer.  The [serialize] hook is called only for
    a format of type ["custom"], and is handed the options of the caller as
    they are; [serializeCoords] is called only for a format of another type,
    with the precision, defaulted, and [options.coords].  So the hook of a
    format that is not custom is never called, and neither is
    [serializeCoords] of a custom format. *)
Theorem X9_one_renderer E input options h tr fmt color st1 r h' tr' :
  convertStage E input (format_option options) (h, tr) = (Ret (fmt, color), st1) ->
  serialize E input options (h, tr) = (r, (h', tr')) ->
  exists new,
    tr' = (tr ++ new)%list
    /\ (forall w a o rs,
          In (ESerializeHook w a o rs) new ->
          f_type fmt = "custom" /\ o = options
          /\ exists hook, f_serialize fmt = Some hook)
    /\ (forall w p cf ra,
          In (ESerializeCoords w p cf ra) new ->
          f_type fmt <> "custom" /\ p = precision_option E options
          /\ cf = o_coords options).
Proof.
  intros Hconv Hrun.
  set (P := fun ev =>
              match ev with
              | ESerializeHook _ _ o _ =>
                f_type fmt = "custom" /\ o = options
                /\ exists hook, f_serialize fmt = Some hook
              | ESerializeCoords _ p cf _ =>
                f_type fmt <> "custom" /\ p = precision_option E options
                /\ cf = o_coords options
              | _ => True
              end).
  assert (Hall : exists new, tr' = (tr ++ new)%list /\ Forall P new).
  { destruct st1 as [h1 tr1].
    destruct (every_in_order 0 2 _ (convertStage_in_order E input (format_option options))
                _ _ _ _ _ Hconv) as (n0 & -> & H0).
    unfold serialize in Hrun. rewrite (bind_ret_run _ _ _ _ _ Hconv) in Hrun.
    simpl fst in Hrun. simpl snd in Hrun.
    assert (Hev : emits (fun new _ => Forall P new)
                    (coords <- gamutStage E options fmt color ;;
                     renderStage E options (format_option options) fmt color coords)).
    { apply every_bind.
      - eapply emits_weaken;
          [apply (every_in_order 2 5), gamutStage_in_order|]. cbv beta.
        intros new _ Hall. eapply Forall_impl; [exact Hall|].
        intros [] Hr; simpl in Hr; try exact I; lia.
      - intros w. eapply emits_weaken; [apply renderStage_calls|]. cbv beta.
        intros new _ Hall. eapply Forall_impl; [exact Hall|].
        intros [] Hr; simpl in *; tauto. }
    destruct (Hev _ _ _ _ _ Hrun) as (n1 & -> & H1).
    exists (n0 ++ n1)%list. split; [symmetry; apply app_assoc|].
    apply Forall_app. split; [|exact H1].
    eapply Forall_impl; [exact H0|].
    intros [] Hr; simpl in Hr; try exact I; lia. }
  destruct Hall as (new & -> & Hall). exists new. split; [reflexivity|].
  rewrite Forall_forall in Hall. split.
  - intros w a o rs Hin. exact (Hall _ (proj2 (list_elem_of_In _ _) Hin)).
  - intros w p cf ra Hin. exact (Hall _ (proj2 (list_elem_of_In _ _) Hin)).
Qed.

Lemma X9_witness :
  Demo.run (Demo.red_store 1%float) (Demo.with_format "count") = Ret "#3"
  /\ forall w p cf ra,
       ~ In (ESerializeCoords w p cf ra)
            (snd (snd (serialize Demo.env (CObject 1) (Demo.with_format "count")
                                 (Demo.red_store 1%float, [])))).
Proof.
  split; [reflexivity|].
  destruct (X9_one_renderer Demo.env (CObject 1) (Demo.with_format "count")
              (Demo.red_store 1%float) [] Demo.count_format 1
              (Demo.red_store 1%float, [EGetColor (CObject 1) (Ret 1)])
              (fst (serialize Demo.env (CObject 1) (Demo.with_format "count")
                              (Demo.red_store 1%float, [])))
              (fst (snd (serialize Demo.env (CObject 1) (Demo.with_format "count")
                                   (Demo.red_store 1%float, []))))
              (snd (snd (serialize Demo.env (CObject 1) (Demo.with_format "count")
                                   (Demo.red_store 1%float, [])))))
    as (new & Hnew & _ & Hcoords); [reflexivity..|].
  intros w p cf ra Hin. rewrite Hnew in Hin.
  destruct (Hcoords w p cf ra Hin) as [Hcustom _]. apply Hcustom. reflexivity.
Defined.

(** *** What the imported functions and the hooks are handed *)

Lemma convertStage_grows E (HC : Contracts E) input format h tr r h' tr' :
  convertStage E input format (h, tr) = (r, (h', tr')) -> length h <= length h'.
Proof.
  intros Hrun.
  destruct (convertStage_cases _ _ _ _ _ _ _ _ Hrun)
    as [(e & Hg & _) | (c & h1 & Hg & Hcases)].
  - exact (proj1 (getColor_writes E HC _ _ _ _ Hg)).
  - assert (Hl : length h <= length h1)
      by exact (proj1 (getColor_writes E HC _ _ _ _ Hg)).
    destruct Hcases as [(_ & -> & _) | (col & _ & Hcases)]; [exact Hl|].
    cbv zeta in Hcases.
    destruct Hcases as [(_ & _ & -> & _) | (_ & s & rt & _ & Hto & _)]; [exact Hl|].
    assert (length h1 <= length h')
      by (eapply frame_length; [|exact (to_no_write E HC _ _ _ _ _ Hto)]; lia).
    lia.
Qed.

Lemma GamutRun_clone_new E (HC : Contracts E) flag color h r h' new :
  GamutRun E flag color h r h' new ->
  forall cl sel rg, In (EToGamut cl sel rg) new -> length h <= cl.
Proof.
  intros HG cl sel rg Hin.
  assert (Hfresh : forall xs ok h2 cl' h3,
             checkInGamut E color (h ++ [HArray xs])%list = (ok, h2) ->
             clone E color h2 = (Ret cl', h3) -> length h <= cl').
  { intros xs ok h2 cl' h3 Hcheck Hclone.
    pose proof (frame_length _ _ _ (le_n _)
                  (checkInGamut_no_write E HC _ _ _ _ Hcheck)) as Hl.
    rewrite length_app in Hl. simpl in Hl.
    destruct (clone_fresh E HC _ _ _ _ Hclone) as [Hcl _]. lia. }
  inversion HG; subst; simpl in Hin; event_cases; eauto.
Qed.

(** X4: when the imported functions keep to their contracts ([Contracts]:
    [getColor] removes no object; [to], [checkInGamut] and [clone] write to no
    object that exists; [clone] returns a new object with a new coordinate
    array; [toGamut] writes at most to what it is handed, and the coordinate
    array of its result is that of its argument or a new one), what
    [toGamut], [serializeCoords] and the hook of a custom format are handed to
    work on did not exist when [serialize] was called: [toGamut] gets a clone,
    the other two the working coordinates, never the input color or its
    coordinate array. *)
Theorem X4_fresh_handover E input options h tr r h' tr' :
  Contracts E ->
  serialize E input options (h, tr) = (r, (h', tr')) ->
  exists new,
    tr' = (tr ++ new)%list
    /\ forall ev l, In ev new -> handed_over ev = Some l -> length h <= l.
Proof.
  intros HC Hrun.
  assert (Hconv0 : forall r0 h1 tr1,
             convertStage E input (format_option options) (h, tr) = (r0, (h1, tr1)) ->
             exists n0, tr1 = (tr ++ n0)%list
                        /\ forall ev l, In ev n0 -> handed_over ev = Some l -> False).
  { intros r0 h1 tr1 Hc.
    destruct (every_in_order 0 2 _ (convertStage_in_order E input (format_option options))
                _ _ _ _ _ Hc) as (n0 & -> & H0).
    exists n0. split; [reflexivity|]. rewrite Forall_forall in H0.
    intros ev l Hin Hl. apply list_elem_of_In, H0 in Hin.
    destruct ev; simpl in Hin, Hl; try discriminate; lia. }
  destruct (serialize_cases _ _ _ _ _ _ Hrun)
    as [(e & Hc & _) | (fmt & color & [h1 tr1] & Hc & Hrest)].
  { destruct (Hconv0 _ _ _ Hc) as (n0 & -> & H0). exists n0.
    split; [reflexivity|]. intros ev l Hin Hl. destruct (H0 ev l Hin Hl). }
  destruct (Hconv0 _ _ _ Hc) as (n0 & -> & H0).
  pose proof (convertStage_grows E HC _ _ _ _ _ _ _ Hc) as Hgrow.
  assert (Hgam : forall r1 h2 tr2,
             gamutStage E options fmt color (h1, (tr ++ n0)%list) = (r1, (h2, tr2)) ->
             exists n1, tr2 = ((tr ++ n0) ++ n1)%list
                        /\ (forall ev l, In ev n1 -> handed_over ev = Some l ->
                                         length h <= l)
                        /\ forall w, r1 = Ret w -> length h <= w).
  { intros r1 h2 tr2 Hg.
    destruct (gamutStage_GamutRun _ _ _ _ _ _ _ _ _ Hg) as (n1 & -> & HG).
    exists n1. split; [reflexivity|]. split.
    - intros ev l Hin Hl.
      destruct (every_in_order 2 5 _ (gamutStage_in_order E options fmt color)
                  _ _ _ _ _ Hg) as (n1' & Heq & H1).
      apply app_inv_head in Heq as <-. rewrite Forall_forall in H1.
      pose proof (H1 _ (proj2 (list_elem_of_In _ _) Hin)) as Hr.
      destruct ev; simpl in Hr, Hl; try discriminate; try lia.
      injection Hl as <-.
      pose proof (GamutRun_clone_new E HC _ _ _ _ _ _ HG _ _ _ Hin). lia.
    - intros w ->.
      destruct (gamutStage_hoare E HC (length h) (fun _ => True) options fmt color
                  _ _ _ _ _ Hgrow I Hg) as [_ Hw]. exact (Hw w eq_refl). }
  destruct Hrest as [(e & Hg & _) | (w & [h2 tr2] & Hg & Hrender)].
  { destruct (Hgam _ _ _ Hg) as (n1 & -> & H1 & _). exists (n0 ++ n1)%list.
    split; [symmetry; apply app_assoc|]. intros ev l Hin Hl.
    apply in_app_or in Hin as [Hin|Hin]; [destruct (H0 ev l Hin Hl) | eauto]. }
  destruct (Hgam _ _ _ Hg) as (n1 & -> & H1 & Hw). specialize (Hw w eq_refl).
  destruct (renderStage_calls E options (format_option options) fmt color w
              _ _ _ _ _ Hrender) as (n2 & -> & H2).
  exists (n0 ++ n1 ++ n2)%list. split; [rewrite !app_assoc; reflexivity|].
  intros ev l Hin Hl.
  apply in_app_or in Hin as [Hin|Hin]; [destruct (H0 ev l Hin Hl)|].
  apply in_app_or in Hin as [Hin|Hin]; [eauto|].
  rewrite Forall_forall in H2. apply list_elem_of_In, H2 in Hin.
  destruct ev; simpl in Hl, Hin; try discriminate; try contradiction;
    injection Hl as <-; destruct Hin as [-> _]; exact Hw.
Qed.

Lemma X4_witness :
  exists new,
    snd (snd (serialize Demo.env (CObject 1) no_options (Demo.wide_store 1%float, [])))
    = ([] ++ new)%list
    /\ forall ev l, In ev new -> handed_over ev = Some l ->
                    length (Demo.wide_store 1%float) <= l.
Proof.
  apply (X4_fresh_handover Demo.env (CObject 1) no_options (Demo.wide_store 1%float) []
           (fst (serialize Demo.env (CObject 1) no_options (Demo.wide_store 1%float, [])))
           (fst (snd (serialize Demo.env (CObject 1) no_options
                                (Demo.wide_store 1%float, []))))).
  - exact demo_contracts.
  - reflexivity.
Defined.

(** *** The working coordinates when nothing is mapped *)

(** X5: when lines 47-54 return without having cloned the color, because
    the correction is off or because [checkInGamut] has answered yes, the
    working coordinates are a new array, other than the coordinate array of
    the color, that holds the coordinates of the color as they were; the
    color and its own array are as they were. *)
Theorem X5_unmapped_copy E options fmt color h tr w h' tr' col xs :
  Contracts E ->
  h !! color = Some (HColor col) ->
  h !! coords col = Some (HArray xs) ->
  gamutStage E options fmt color (h, tr) = (Ret w, (h', tr')) ->
  exists new,
    tr' = (tr ++ new)%list
    /\ ((forall r0, ~ In (EClone color r0) new) ->
        w = length h /\ w <> coords col /\ w <> color
        /\ h' !! w = Some (HArray xs)
        /\ h' !! coords col = Some (HArray xs)
        /\ h' !! color = Some (HColor col)).
Proof.
  intros HC Hcolor Hcoords Hrun.
  destruct (gamutStage_GamutRun _ _ _ _ _ _ _ _ _ Hrun) as (new & -> & HG).
  exists new. split; [reflexivity|]. intros Hnoclone.
  pose proof (lookup_lt_Some _ _ _ Hcolor) as Hlc.
  pose proof (lookup_lt_Some _ _ _ Hcoords) as Hlx.
  assert (Hcopy : forall h2 : heap,
             frame (length (h ++ [HArray xs])%list) (h ++ [HArray xs])%list h2 ->
             length h = length h /\ length h <> coords col /\ length h <> color
             /\ h2 !! length h = Some (HArray xs)
             /\ h2 !! coords col = Some (HArray xs)
             /\ h2 !! color = Some (HColor col)).
  { intros h2 Hf. rewrite length_app in Hf. simpl in Hf.
    split; [reflexivity|]. split; [lia|]. split; [lia|].
    rewrite !Hf by lia.
    rewrite lookup_app_r by lia. rewrite Nat.sub_diag.
    rewrite !lookup_app_l by lia. auto. }
  inversion HG; subst;
    try (exfalso; eapply Hnoclone; simpl; eauto; fail).
  - match goal with H : h !! color = Some (HColor ?c) |- _ =>
      rewrite Hcolor in H; injection H as <- end.
    match goal with H : h !! coords col = Some (HArray ?ys) |- _ =>
      rewrite Hcoords in H; injection H as <- end.
    apply Hcopy, frame_refl.
  - match goal with H : h !! color = Some (HColor ?c) |- _ =>
      rewrite Hcolor in H; injection H as <- end.
    match goal with H : h !! coords col = Some (HArray ?ys) |- _ =>
      rewrite Hcoords in H; injection H as <- end.
    apply Hcopy. eapply checkInGamut_no_write; eassumption.
Qed.

Lemma X5_witness :
  exists new,
    Demo.red_trace = ([EGetColor (CObject 1) (Ret 1)] ++ new)%list
    /\ ((forall r0, ~ In (EClone 1 r0) new) ->
        2 = length (Demo.red_store 1%float) /\ 2 <> coords (Demo.red 1%float) /\ 2 <> 1
        /\ Demo.red_copied 1%float !! 2 = Some (HArray Demo.red_coords)
        /\ Demo.red_copied 1%float !! coords (Demo.red 1%float)
           = Some (HArray Demo.red_coords)
        /\ Demo.red_copied 1%float !! 1 = Some (HColor (Demo.red 1%float))).
Proof.
  apply (X5_unmapped_copy Demo.env no_options Demo.color_format 1
           (Demo.red_store 1%float) [EGetColor (CObject 1) (Ret 1)] 2
           (Demo.red_copied 1%float) Demo.red_trace (Demo.red 1%float) Demo.red_coords).
  - exact demo_contracts.
  - reflexivity.
  - reflexivity.
  - reflexivity.
Defined.

(** *** Whether the correction is on *)

Lemma truthy_js_or a b : truthy (js_or a b) = truthy a || truthy b.
Proof. unfold js_or. destruct (truthy a) eqn:Ha; [exact Ha | reflexivity]. Qed.

(** X8: the gamut correction is on when [options.inGamut] is absent or
    truthy, or when the format's [toGamut] is truthy.  Then [checkInGamut] is
    the first call of lines 47-54, on the color, once the coordinates are
    copied.  With [options.inGamut] any falsy value other than [undefined]
    ([false], [null], [0], [NaN], the empty string) and a format without
    [toGamut], nothing is called and the coordinates are the plain copy. *)
Theorem X8_gamut_check E options fmt color h tr r h' tr' col xs :
  h !! color = Some (HColor col) ->
  h !! coords col = Some (HArray xs) ->
  gamutStage E options fmt color (h, tr) = (r, (h', tr')) ->
  let on := truthy (match o_inGamut options with
                    | VUndefined => VBool true
                    | v => v
                    end) || truthy (f_toGamut fmt) in
  (on = true ->
   exists r0 h2 rest,
     checkInGamut E color (h ++ [HArray xs])%list = (r0, h2)
     /\ tr' = (tr ++ ECheckInGamut color r0 :: rest)%list)
  /\ (on = false ->
      r = Ret (length h) /\ h' = (h ++ [HArray xs])%list /\ tr' = tr).
Proof.
  intros Hcolor Hcoords Hrun on.
  assert (Hon : truthy (effective_inGamut options fmt) = on)
    by apply truthy_js_or.
  destruct (gamutStage_GamutRun _ _ _ _ _ _ _ _ _ Hrun) as (new & -> & HG).
  clearbody on. clear Hrun.
  inversion HG; subst;
    try (exfalso; match goal with H : forall _, _ <> _ |- _ => eapply H; eassumption end);
    repeat match goal with
           | H : h !! color = Some (HColor ?c) |- _ =>
             rewrite Hcolor in H; injection H as <-
           | H : h !! coords col = Some (HArray ?ys) |- _ =>
             rewrite Hcoords in H; injection H as <-
           end;
    (split; [intros Ht | intros Hf]); try congruence;
    try (rewrite app_nil_r; auto; fail);
    eauto 6.
Qed.

Lemma X8_witness :
  fst (gamutStage Demo.env (Demo.with_format_inGamut "color" (VNum 0%float))
                  Demo.color_format 1 (Demo.wide_store 1%float, []))
  = Ret 2
  /\ snd (snd (gamutStage Demo.env (Demo.with_format_inGamut "color" (VNum 0%float))
                          Demo.color_format 1 (Demo.wide_store 1%float, [])))
     = [].
Proof.
  destruct (X8_gamut_check Demo.env (Demo.with_format_inGamut "color" (VNum 0%float))
              Demo.color_format 1 (Demo.wide_store 1%float) []
              (fst (gamutStage Demo.env
                      (Demo.with_format_inGamut "color" (VNum 0%float))
                      Demo.color_format 1 (Demo.wide_store 1%float, [])))
              (fst (snd (gamutStage Demo.env
                           (Demo.with_format_inGamut "color" (VNum 0%float))
                           Demo.color_format 1 (Demo.wide_store 1%float, []))))
              (snd (snd (gamutStage Demo.env
                           (Demo.with_format_inGamut "color" (VNum 0%float))
                           Demo.color_format 1 (Demo.wide_store 1%float, []))))
              (Demo.wide 1%float) Demo.wide_coords) as [_ Hoff]; [reflexivity..|].
  destruct (Hoff eq_refl) as (Hr & _ & Htr). split; [exact Hr | exact Htr].
Defined.

(** *** The array of arguments *)

(** X6: for a functional format, [serializeCoords] is the one call of lines
    64-103, on the working coordinates, the precision and [options.coords].
    When the name of the function is ["color"], the array it has returned is
    changed in place, the id being put in front ([unshift]); otherwise
    [serialize] leaves the store as [serializeCoords] has left it. *)
Theorem X6_args_in_place E input options st st1 fmt color w args h h1 tr col xs :
  convertStage E input (format_option options) st = (Ret (fmt, color), st1) ->
  gamutStage E options fmt color st1 = (Ret w, (h, tr)) ->
  f_type fmt <> "custom" ->
  f_serializeCoords fmt w (precision_option E options) (o_coords options) h
  = (Ret args, h1) ->
  h1 !! color = Some (HColor col) ->
  h1 !! args = Some (HArray xs) ->
  exists s h',
    serialize E input options st
    = (Ret s, (h', (tr ++ [ESerializeCoords w (precision_option E options)
                                            (o_coords options) (Ret args)])%list))
    /\ (functional_name fmt = "color" ->
        h' = <[args := HArray (VStr (css_id fmt (space col)) :: xs)]> h1
        /\ h' !! args = Some (HArray (VStr (css_id fmt (space col)) :: xs))
        /\ forall l, l <> args -> h' !! l = h1 !! l)
    /\ (functional_name fmt <> "color" -> h' = h1).
Proof.
  intros Hconvert Hgamut Hfunctional Hsc Hcolor Hargs.
  rewrite (serialize_stages _ _ _ _ _ _ _ _ _ Hconvert Hgamut).
  unfold renderStage. apply String.eqb_neq in Hfunctional. rewrite Hfunctional.
  rewrite (functionalStage_run _ _ _ _ _ _ _ _ _ _ _ Hsc Hcolor Hargs).
  eexists _, _. split; [reflexivity|].
  destruct (functional_name fmt =? "color") eqn:Hname.
  - split; [|intros Hn; apply String.eqb_eq in Hname; contradiction].
    intros _. split; [reflexivity|]. split.
    + eapply lookup_insert_array. exact Hargs.
    + intros l Hl. apply list_lookup_insert_ne. congruence.
  - apply String.eqb_neq in Hname. split; [contradiction | reflexivity].
Qed.

Lemma X6_witness :
  fst (snd (serialize Demo.env (CObject 1) no_options (Demo.red_store 1%float, [])))
  !! 3
  = Some (HArray (VStr "srgb" :: Demo.red_args)).
Proof.
  destruct (X6_args_in_place Demo.env (CObject 1) no_options
              (Demo.red_store 1%float, [])
              (Demo.red_store 1%float, [EGetColor (CObject 1) (Ret 1)])
              Demo.color_format 1 2 3
              (Demo.red_copied 1%float) (Demo.red_serialized 1%float)
              Demo.red_trace (Demo.red 1%float) Demo.red_args)
    as (s & h' & Hrun & Hcolor & _); [demo_run ..|].
  destruct (Hcolor eq_refl) as (_ & Hl & _).
  rewrite Hrun. exact Hl.
Defined.

(** *** The kinds of [options.alpha] *)

(** X7: only the boolean [true] or [false], given as [options.alpha] or as
    the [include] of an object, can force or suppress the alpha suffix.  With
    anything else that is not an object, a string such as ["<percentage>"], a
    number, even [1] or [0], or [null], the suffix is there exactly when the
    format's alpha flag is [true], or when that flag is not [false] and
    [alpha < 1]: asking for a percentage does not make an opaque color show
    its alpha. *)
Theorem X7_alpha_only_booleans E input options st st1 fmt color w args h h1 tr col xs :
  convertStage E input (format_option options) st = (Ret (fmt, color), st1) ->
  gamutStage E options fmt color st1 = (Ret w, (h, tr)) ->
  f_type fmt <> "custom" ->
  f_serializeCoords fmt w (precision_option E options) (o_coords options) h
  = (Ret args, h1) ->
  h1 !! color = Some (HColor col) ->
  h1 !! args = Some (HArray xs) ->
  (forall b, o_alpha options <> VBool b) ->
  (forall props, o_alpha options <> VObj props) ->
  fst (serialize E input options st)
  = Ret (functional_text E fmt (space col) xs
           (if is_true (f_alpha fmt)
               || negb (is_false (f_alpha fmt)) && PrimFloat.ltb (alpha col) 1
            then (if f_commas fmt then ", " else " / ")
                 ++ alpha_text E (precision_option E options)
                               (normalize_alphaFormat (o_alpha options)) (alpha col)
            else "")).
Proof.
  intros Hconvert Hgamut Hfunctional Hsc Hcolor Hargs Hbool Hobj.
  rewrite (serialize_functional_text _ _ _ _ _ _ _ _ _ _ _ _ _ _
             Hconvert Hgamut Hfunctional Hsc Hcolor Hargs).
  assert (Hs : serializeAlpha (normalize_alphaFormat (o_alpha options)) fmt (alpha col)
               = is_true (f_alpha fmt)
                 || negb (is_false (f_alpha fmt)) && PrimFloat.ltb (alpha col) 1).
  { unfold serializeAlpha.
    destruct (o_alpha options) as [| |b|n|s|props]; try reflexivity.
    - destruct (Hbool b eq_refl).
    - destruct (Hobj props eq_refl). }
  destruct (is_true (f_alpha fmt)
            || negb (is_false (f_alpha fmt)) && PrimFloat.ltb (alpha col) 1).
  - rewrite (strAlpha_shown _ _ _ _ Hs). reflexivity.
  - rewrite (strAlpha_hidden _ _ _ _ Hs). reflexivity.
Qed.

Lemma X7_witness :
  Demo.run (Demo.red_store 1%float) (Demo.with_alpha (VStr "<percentage>"))
  = Ret "color(srgb 1 0 0)".
Proof.
  unfold Demo.run.
  rewrite (X7_alpha_only_booleans Demo.env (CObject 1)
             (Demo.with_alpha (VStr "<percentage>"))
             (Demo.red_store 1%float, [])
             (Demo.red_store 1%float, [EGetColor (CObject 1) (Ret 1)])
             Demo.color_format 1 2 3
             (Demo.red_copied 1%float) (Demo.red_serialized 1%float)
             Demo.red_trace (Demo.red 1%float) Demo.red_args);
    [reflexivity | demo_run ..].
Defined.

(** *** Which options matter *)

Lemma gamutStage_ext E options options' fmt color :
  inGamut_option options = inGamut_option options' ->
  gamutStage E options fmt color = gamutStage E options' fmt color.
Proof.
  intros H. unfold gamutStage, effective_inGamut. rewrite H. reflexivity.
Qed.

Lemma functionalStage_ext E options options' fmt color w :
  precision_option E options = precision_option E options' ->
  o_coords options = o_coords options' ->
  o_alpha options = o_alpha options' ->
  functionalStage E options fmt color w = functionalStage E options' fmt color w.
Proof.
  intros Hp Hc Ha. unfold functionalStage, strAlpha. rewrite Hp, Hc, Ha. reflexivity.
Qed.

(** X10: an option that is left out is the option at its default.  For a
    format that is not custom, a run depends on the options only through the
    precision, [defaults.precision] when absent, the format id, ["default"]
    when absent, [inGamut], [true] when absent, and [coords] and [alpha] as
    they are: two option objects that agree on these give the same result,
    the same store and the same calls. *)
Theorem X10_defaults E input options options' st :
  precision_option E options = precision_option E options' ->
  format_option options = format_option options' ->
  inGamut_option options = inGamut_option options' ->
  o_coords options = o_coords options' ->
  o_alpha options = o_alpha options' ->
  (forall fmt color st1,
     convertStage E input (format_option options) st = (Ret (fmt, color), st1) ->
     f_type fmt <> "custom") ->
  serialize E input options st = serialize E input options' st.
Proof.
  intros Hp Hf Hg Hc Ha Hfunctional. unfold serialize. rewrite <- Hf.
  rewrite !bind_run.
  destruct (convertStage E input (format_option options) st)
    as [[[fmt color]|e] st1] eqn:Hconv; [|reflexivity].
  cbv beta. cbn [fst snd]. rewrite <- (gamutStage_ext E options options' fmt color Hg).
  rewrite !bind_run. destruct (gamutStage E options fmt color st1) as [[w|e] st2];
    [|reflexivity].
  unfold renderStage. specialize (Hfunctional fmt color st1 eq_refl).
  apply String.eqb_neq in Hfunctional. rewrite Hfunctional.
  rewrite (functionalStage_ext E options options' fmt color w Hp Hc Ha). reflexivity.
Qed.

Lemma X10_witness :
  serialize Demo.env (CObject 1) no_options (Demo.wide_store 0.5%float, [])
  = serialize Demo.env (CObject 1)
              {| o_precision := VNum 5%float; o_format := Some "default";
                 o_inGamut := VBool true; o_coords := VUndefined;
                 o_alpha := VUndefined |}
              (Demo.wide_store 0.5%float, []).
Proof.
  apply X10_defaults; try reflexivity.
  intros fmt color st1 [= <- _ _]. discriminate.
Defined.

(** X11: for a custom format, [serialize] itself looks at two options only,
    [format] and [inGamut]; the others reach the hook and nothing else.  Two
    option objects that agree on these two, and between which the hook makes
    no difference, give the same result and the same store. *)
Theorem X11_custom_options E input options options' st :
  format_option options = format_option options' ->
  inGamut_option options = inGamut_option options' ->
  (forall fmt color st1,
     convertStage E input (format_option options) st = (Ret (fmt, color), st1) ->
     f_type fmt = "custom"
     /\ forall hook, f_serialize fmt = Some hook ->
                     forall w a, hook w a options = hook w a options') ->
  fst (serialize E input options st) = fst (serialize E input options' st)
  /\ fst (snd (serialize E input options st))
     = fst (snd (serialize E input options' st)).
Proof.
  intros Hf Hg Hcustom. unfold serialize. rewrite <- Hf.
  rewrite !bind_run.
  destruct (convertStage E input (format_option options) st)
    as [[[fmt color]|e] st1] eqn:Hconv; [|split; reflexivity].
  cbv beta. cbn [fst snd].
  rewrite <- (gamutStage_ext E options options' fmt color Hg).
  rewrite !bind_run. destruct (gamutStage E options fmt color st1) as [[w|e] st2];
    [|split; reflexivity].
  unfold renderStage. destruct (Hcustom fmt color st1 eq_refl) as [Ht Hhook].
  apply String.eqb_eq in Ht. rewrite Ht. unfold customStage.
  destruct (f_serialize fmt) as [hook|]; [|split; reflexivity].
  rewrite !bind_run.
  destruct (readColor color st2) as [[c|e] st3]; [|split; reflexivity].
  unfold call. rewrite <- (Hhook hook eq_refl w (alpha c)).
  destruct (hook w (alpha c) options (fst st3)) as [r h']. split; reflexivity.
Qed.

Lemma X11_witness :
  fst (serialize Demo.env (CObject 1) (Demo.with_format "count")
                 (Demo.red_store 1%float, []))
  = fst (serialize Demo.env (CObject 1)
                   (Demo.with_format_alpha "count" (VBool true))
                   (Demo.red_store 1%float, [])).
Proof.
  apply (X11_custom_options Demo.env (CObject 1) (Demo.with_format "count")
           (Demo.with_format_alpha "count" (VBool true))
           (Demo.red_store 1%float, [])); try reflexivity.
  intros fmt color st1 [= <- _ _]. split; [reflexivity|].
  intros hook [= <-] w a. reflexivity.
Defined.

(** ** The examples of the specification *)

Example red_default :
  Demo.run (Demo.red_store 1%float) no_options = Ret "color(srgb 1 0 0)".
Proof. reflexivity. Qed.

Example red_alpha_forced :
  Demo.run (Demo.red_store 1%float) (Demo.with_alpha (VBool true))
  = Ret "color(srgb 1 0 0 / 1)".
Proof. reflexivity. Qed.

Example red_half_alpha :
  Demo.run (Demo.red_store 0.5%float) no_options = Ret "color(srgb 1 0 0 / 0.5)".
Proof. reflexivity. Qed.

Example red_rounded :
  Demo.run (Demo.red_store 0.125%float)
           (Demo.with_precision_alpha (VNum 2%float) VUndefined)
  = Ret "color(srgb 1 0 0 / 0.13)".
Proof. reflexivity. Qed.

Example wide_mapped :
  Demo.run (Demo.wide_store 1%float) no_options = Ret "color(srgb 1 0 0.5)".
Proof. reflexivity. Qed.
